(** * ZirCatzServer: the SVG reconciler, the text listener and the HTTP handlers
    of [server.js], as a shallow embedding.

    The asynchronous functions of the server are modelled as tasks: functions
    from the document store to a completion (normal return or thrown error),
    the store afterwards and the list of calls the task made on its
    collaborators (RPC endpoint, store, console).  The answers of the
    collaborators are inputs: the chain state, and a per-tick record of the
    calls that fail.  One task runs from start to end without interleaving
    with another one. *)

From Stdlib Require Import String Ascii List NArith Lia Bool.
From Stdlib Require Import DecimalString DecimalPos DecimalN.
From Stdlib.Strings Require Import Byte.
Import ListNotations.
Open Scope string_scope.
Open Scope N_scope.
Open Scope list_scope.

(** ** JavaScript values and strings *)

Module Js.

(** Errors that reach a [catch] of the server.  [TypeError] is what
    [Buffer.from(undefined, "base64")] throws; the others come from the
    collaborators. *)
Inductive Err :=
| NetworkError
| CallException
| MongoError
| TypeError.

(** The values the server stores in, and reads from, documents. *)
Inductive Value :=
| VUndefined
| VNull
| VString (s : string)
| VDate (ms : N)
| VObjectId (oid : N).

(** [BigInt.prototype.toString()]: the decimal form of a token id. *)
Definition toString (n : N) : string :=
  NilZero.string_of_uint (N.to_uint n).

(** [s.split(sep)] for a one-character separator. *)
Fixpoint split (sep : ascii) (s : string) : list string :=
  match s with
  | EmptyString => [EmptyString]
  | String c rest =>
      if Ascii.eqb c sep then EmptyString :: split sep rest
      else match split sep rest with
           | [] => [String c EmptyString]
           | seg :: segs => String c seg :: segs
           end
  end.

(** [c] occurs in [s]. *)
Fixpoint occurs (c : ascii) (s : string) : bool :=
  match s with
  | EmptyString => false
  | String d rest => Ascii.eqb d c || occurs c rest
  end.

(** Characters of a base64 payload: the alphabet of RFC 4648 and the
    padding character. *)
Definition base64_char (c : ascii) : bool :=
  let n := N_of_ascii c in
  ((65 <=? n) && (n <=? 90)) || ((97 <=? n) && (n <=? 122))
  || ((48 <=? n) && (n <=? 57)) || (n =? 43) || (n =? 47) || (n =? 61).

Fixpoint base64_payload (s : string) : bool :=
  match s with
  | EmptyString => true
  | String c rest => base64_char c && base64_payload rest
  end.

End Js.
Import Js.

(** The two primitives of the Node runtime that [fetchAndStoreSVGs] uses to
    decode a payload: [Buffer.from(s, "base64")] and
    [buf.toString("utf-8")].  They belong to the runtime, not to the
    server, and are a parameter of the model. *)
Class NodeRuntime := {
  Buffer_from_base64 : string -> list byte;
  Buffer_toString_utf8 : list byte -> string
}.

(** ** Documents and the store *)

Module Mongo.

(** A document: its fields in order. *)
Definition Doc := list (string * Value).

Fixpoint field (name : string) (d : Doc) : option Value :=
  match d with
  | [] => None
  | (k, v) :: rest => if String.eqb k name then Some v else field name rest
  end.

(** [d.name] in JavaScript: [undefined] when the field is missing. *)
Definition prop (name : string) (d : Doc) : Value :=
  match field name d with
  | Some v => v
  | None => VUndefined
  end.

Definition field_names (d : Doc) : list string := map fst d.

(** [$set]: overwrite the field in place, or add it at the end. *)
Fixpoint set_field (name : string) (v : Value) (d : Doc) : Doc :=
  match d with
  | [] => [(name, v)]
  | (k, w) :: rest =>
      if String.eqb k name then (k, v) :: rest
      else (k, w) :: set_field name v rest
  end.

(** The filter [{ tokenId: key }]. *)
Definition matches (key : string) (d : Doc) : bool :=
  match field "tokenId" d with
  | Some (VString s) => String.eqb s key
  | _ => false
  end.

Inductive CollName := svgs | catTexts.

Definition coll_name (c : CollName) : string :=
  match c with
  | svgs => "svgs"
  | catTexts => "catTexts"
  end.

(** The database "zircats": its two collections, each in insertion order,
    and the source of fresh [_id] values. *)
Record Store := mkStore {
  coll_svgs : list Doc;
  coll_catTexts : list Doc;
  next_oid : N
}.

Definition coll (c : CollName) (st : Store) : list Doc :=
  match c with
  | svgs => coll_svgs st
  | catTexts => coll_catTexts st
  end.

Definition set_coll (c : CollName) (docs : list Doc) (st : Store) : Store :=
  match c with
  | svgs => mkStore docs (coll_catTexts st) (next_oid st)
  | catTexts => mkStore (coll_svgs st) docs (next_oid st)
  end.

Definition bump_oid (st : Store) : Store :=
  mkStore (coll_svgs st) (coll_catTexts st) (N.succ (next_oid st)).

(** Update the first document that satisfies [p]. *)
Fixpoint update_first (p : Doc -> bool) (f : Doc -> Doc) (docs : list Doc)
  : list Doc :=
  match docs with
  | [] => []
  | d :: rest => if p d then f d :: rest else d :: update_first p f rest
  end.

(** Number of documents of a collection with a given key. *)
Definition count_key (key : string) (docs : list Doc) : nat :=
  List.length (filter (matches key) docs).

End Mongo.
Import Mongo.

(** ** Tasks *)

(** A call of the server on one of its collaborators. *)
Inductive Event :=
| RpcGetNetwork
| RpcTotalSupply
| RpcTokenByIndex (i : N)
| RpcTokenURI (tokenId : N)
| DbFindOne (c : CollName) (key : string)
| DbInsertOne (c : CollName) (d : Doc)
| DbUpdateOne (c : CollName) (key : string) (text : string)
| DbFindAll (c : CollName)
| ConsoleLog (args : list string)
| ConsoleError (msg : string) (e : option Err).

Inductive Completion (A : Type) :=
| Normal (a : A)
| Thrown (e : Err).
Arguments Normal {A} a.
Arguments Thrown {A} e.

Definition Task (A : Type) : Type :=
  Store -> Completion A * Store * list Event.

Definition ret {A} (a : A) : Task A :=
  fun st => (Normal a, st, []).

Definition throw {A} (e : Err) : Task A :=
  fun st => (Thrown e, st, []).

Definition bind {A B} (m : Task A) (k : A -> Task B) : Task B :=
  fun st =>
    match m st with
    | (Normal a, st1, ev1) =>
        match k a st1 with
        | (r, st2, ev2) => (r, st2, ev1 ++ ev2)
        end
    | (Thrown e, st1, ev1) => (Thrown e, st1, ev1)
    end.

(** [try { m } catch (error) { h error }]. *)
Definition try_catch {A} (m : Task A) (h : Err -> Task A) : Task A :=
  fun st =>
    match m st with
    | (Normal a, st1, ev1) => (Normal a, st1, ev1)
    | (Thrown e, st1, ev1) =>
        match h e st1 with
        | (r, st2, ev2) => (r, st2, ev1 ++ ev2)
        end
    end.

Definition emit (e : Event) : Task unit :=
  fun st => (Normal tt, st, [e]).

(** A call on a collaborator: it is recorded, then fails or answers. *)
Definition call {A} (e : Event) (fault : option Err) (answer : Task A)
  : Task A :=
  fun st =>
    match fault with
    | Some err => (Thrown err, st, [e])
    | None => match answer st with
              | (r, st1, ev1) => (r, st1, e :: ev1)
              end
    end.

Declare Scope task_scope.
Delimit Scope task_scope with task.
Notation "x <- m ;; k" := (bind m (fun x => k))
  (at level 100, m at next level, right associativity) : task_scope.
Notation "m ;; k" := (bind m (fun _ => k))
  (at level 100, right associativity) : task_scope.
Open Scope task_scope.

Definition completion {A} (r : Completion A * Store * list Event)
  : Completion A := fst (fst r).
Definition store_after {A} (r : Completion A * Store * list Event)
  : Store := snd (fst r).
Definition events {A} (r : Completion A * Store * list Event)
  : list Event := snd r.

Definition console_log (args : list string) : Task unit :=
  emit (ConsoleLog args).
Definition console_error (msg : string) (e : option Err) : Task unit :=
  emit (ConsoleError msg e).

(** ** Store operations of the driver *)

(** [collection.findOne({ tokenId: key })]. *)
Definition findOne (fault : option Err) (c : CollName) (key : string)
  : Task (option Doc) :=
  call (DbFindOne c key) fault
       (fun st => (Normal (find (matches key) (coll c st)), st, [])).

(** [collection.insertOne(doc)]: the document gets a fresh [_id] and goes to
    the end of the collection; the result is the inserted id.  A call that
    fails throws and stores nothing. *)
Definition insertOne (fault : option Err) (c : CollName) (d : Doc)
  : Task Value :=
  call (DbInsertOne c d) fault
       (fun st =>
          let oid := VObjectId (next_oid st) in
          (Normal oid,
           bump_oid (set_coll c (coll c st ++ [("_id", oid) :: d]) st),
           [])).

(** [collection.updateOne({ tokenId: key }, { $set: { text } },
    { upsert: true })]. *)
Definition updateOne_upsert (fault : option Err) (c : CollName)
  (key text : string) : Task unit :=
  call (DbUpdateOne c key text) fault
       (fun st =>
          if existsb (matches key) (coll c st)
          then (Normal tt,
                set_coll c (update_first (matches key)
                              (set_field "text" (VString text)) (coll c st)) st,
                [])
          else (Normal tt,
                bump_oid (set_coll c
                  (coll c st ++ [[("_id", VObjectId (next_oid st));
                                  ("tokenId", VString key);
                                  ("text", VString text)]]) st),
                [])).

(** [collection.find({}).toArray()]. *)
Definition find_all (fault : option Err) (c : CollName) : Task (list Doc) :=
  call (DbFindAll c) fault (fun st => (Normal (coll c st), st, [])).

(** ** The chain and the environment of one tick *)

(** The contract state the server reads: [totalSupply()],
    [tokenByIndex(i)] and [tokenURI(id)]. *)
Record Chain := mkChain {
  chain_totalSupply : N;
  chain_tokenByIndex : N -> N;
  chain_tokenURI : N -> string
}.

(** What one tick meets besides the chain state: which calls fail and
    with what error, and what [new Date()] reads.  The calls made inside the
    loop are keyed by the loop index, each being made at most once per index
    and tick. *)
Record Tick := mkTick {
  getNetwork_fault : option Err;
  totalSupply_fault : option Err;
  tokenByIndex_fault : N -> option Err;
  tokenURI_fault : N -> option Err;
  findOne_fault : N -> option Err;
  insertOne_fault : N -> option Err;
  clock : N -> N
}.

(** A tick without failures. *)
Definition calm (time : N) : Tick :=
  mkTick None None (fun _ => None) (fun _ => None) (fun _ => None)
         (fun _ => None) (fun _ => time).

Inductive Provider := JsonRpcProvider.

(** One delivery of the contract event [TextSet(tokenId, text)], with the
    failure of the store at that moment, if any. *)
Record TextSet := mkTextSet {
  ev_fault : option Err;
  ev_tokenId : N;
  ev_text : string
}.

Inductive ListenerState := Disconnected | Subscribed.

(** ** HTTP responses *)

Inductive Body :=
| JsonMessage (message : string)
| JsonError (error : string)
| JsonValue (v : Value)
| JsonDocs (docs : list Doc)
| JsonPublished (id : Value).

Record Response := mkResponse {
  status : N;
  body : Body
}.

(** ** The server *)

Section Server.

Context {rt : NodeRuntime}.
Variable chain : Chain.

(** [getProvider()], lines 44-54.  The constructor of the provider does no
    I/O; the one call that can fail is [provider.getNetwork()]. *)
Definition getProvider (t : Tick) : Task (option Provider) :=
  try_catch
    (call RpcGetNetwork (getNetwork_fault t) (ret tt) ;;
     console_log ["Connected to the network"] ;;
     ret (Some JsonRpcProvider))
    (fun error =>
       console_error "Failed to connect to the network:" (Some error) ;;
       ret None).

(** [Buffer.from(tokenURI.split(",")[1], "base64").toString("utf-8")],
    line 82: without a second segment the argument is [undefined] and
    [Buffer.from] throws a [TypeError]. *)
Definition decode_svg (tokenURI : string) : Task string :=
  match nth_error (split "," tokenURI) 1 with
  | Some payload =>
      ret (Buffer_toString_utf8 (Buffer_from_base64 payload))
  | None => throw TypeError
  end.

(** The document of lines 87-91. *)
Definition token_record (tokenId : N) (svgContent : string) (date : N)
  : Doc :=
  [("tokenId", VString (toString tokenId));
   ("svg", VString svgContent);
   ("createdAt", VDate date)].

(** The body of the loop, lines 71-93, at index [i]. *)
Definition reconcile_token (t : Tick) (i : N) : Task unit :=
  tokenId <- call (RpcTokenByIndex i) (tokenByIndex_fault t i)
                  (ret (chain_tokenByIndex chain i)) ;;
  tokenURI <- call (RpcTokenURI tokenId) (tokenURI_fault t i)
                   (ret (chain_tokenURI chain tokenId)) ;;
  existingToken <- findOne (findOne_fault t i) svgs (toString tokenId) ;;
  match existingToken with
  | Some _ =>
      console_log
        [("Token ID " ++ toString tokenId ++ " already exists, skipping.")
           %string]
  | None =>
      svgContent <- decode_svg tokenURI ;;
      console_log
        [("SVG content for token ID " ++ toString tokenId ++ ":")%string;
         svgContent] ;;
      insertOne (insertOne_fault t i) svgs
                (token_record tokenId svgContent (clock t i)) ;;
      console_log [("Stored SVG for token ID " ++ toString tokenId)%string]
  end.

(** [for (let i = start; ...; i++) body(i)] with [count] iterations left.
    The index is a JavaScript number; it is exact, and [i++] is the
    successor, for a supply below 2^53. *)
Fixpoint for_loop (body : N -> Task unit) (count : nat) (i : N)
  : Task unit :=
  match count with
  | O => ret tt
  | S count' => body i ;; for_loop body count' (N.succ i)
  end.

(** The [try] block of [fetchAndStoreSVGs], lines 66-96: [totalSupply] is
    read once and bounds the loop. *)
Definition reconcile_pass (t : Tick) : Task unit :=
  totalSupply <- call RpcTotalSupply (totalSupply_fault t)
                      (ret (chain_totalSupply chain)) ;;
  for_loop (reconcile_token t) (N.to_nat totalSupply) 0 ;;
  console_log ["Finished fetching and storing SVGs"].

(** [fetchAndStoreSVGs()], lines 56-100. *)
Definition fetchAndStoreSVGs (t : Tick) : Task unit :=
  provider <- getProvider t ;;
  match provider with
  | None =>
      console_error "Could not connect to the network. Skipping SVG fetch."
                    None
  | Some _ =>
      try_catch
        (reconcile_pass t)
        (fun error =>
           console_error "Error fetching and storing SVGs:" (Some error))
  end.

(** The callback of [contract.on("TextSet", ...)], lines 120-136. *)
Definition on_TextSet (e : TextSet) : Task unit :=
  console_log
    [("TextSet event: TokenID " ++ toString (ev_tokenId e) ++ ", Text: "
        ++ ev_text e)%string] ;;
  try_catch
    (updateOne_upsert (ev_fault e) catTexts (toString (ev_tokenId e))
                      (ev_text e) ;;
     console_log
       [("Stored text for token ID " ++ toString (ev_tokenId e))%string])
    (fun error =>
       console_error "Error storing text in MongoDB:" (Some error)).

(** [listenForTextSetEvents()], lines 111-139: the state of the listener
    after the one attempt to subscribe. *)
Definition listenForTextSetEvents (t : Tick) : Task ListenerState :=
  provider <- getProvider t ;;
  match provider with
  | None =>
      console_error
        "Could not connect to the network. Skipping event listening." None ;;
      ret Disconnected
  | Some _ =>
      console_log ["Listening for TextSet events..."] ;;
      ret Subscribed
  end.

(** Events delivered in order to the listener. *)
Fixpoint deliver (l : ListenerState) (es : list TextSet) : Task unit :=
  match l, es with
  | Subscribed, e :: rest => on_TextSet e ;; deliver l rest
  | _, _ => ret tt
  end.

(** [POST /publish-svg], lines 169-180, for a body [{ svg: string }]. *)
Definition publish_svg (fault : option Err) (svg : string) (date : N)
  : Task Response :=
  try_catch
    (id <- insertOne fault svgs [("svg", VString svg);
                                 ("createdAt", VDate date)] ;;
     ret (mkResponse 200 (JsonPublished id)))
    (fun error =>
       console_error "Error publishing SVG:" (Some error) ;;
       ret (mkResponse 500 (JsonError "Failed to publish SVG"))).

(** [GET /get-svgs], lines 182-192. *)
Definition get_svgs (fault : option Err) : Task Response :=
  try_catch
    (docs <- find_all fault svgs ;;
     ret (mkResponse 200 (JsonDocs docs)))
    (fun error =>
       console_error "Error fetching SVGs:" (Some error) ;;
       ret (mkResponse 500 (JsonError "Failed to fetch SVGs"))).

(** [GET /fetch-svgs], lines 194-202. *)
Definition fetch_svgs (t : Tick) : Task Response :=
  try_catch
    (fetchAndStoreSVGs t ;;
     ret (mkResponse 200 (JsonMessage "SVG fetch process initiated")))
    (fun error =>
       console_error "Error initiating SVG fetch:" (Some error) ;;
       ret (mkResponse 500 (JsonError "Failed to initiate SVG fetch"))).

(** [GET /get-cat-text/:tokenId], lines 204-214. *)
Definition get_cat_text (fault : option Err) (tokenId : string)
  : Task Response :=
  try_catch
    (result <- findOne fault catTexts tokenId ;;
     ret (mkResponse 200
            (JsonValue match result with
                       | Some d => prop "text" d
                       | None => VNull
                       end)))
    (fun error =>
       console_error "Error fetching cat text:" (Some error) ;;
       ret (mkResponse 500 (JsonError "Failed to fetch cat text"))).

End Server.

(** ** A runtime for test vectors *)

Module Reference.

(** Value of a character of the RFC 4648 alphabet. *)
Definition sextet (c : ascii) : option N :=
  let n := N_of_ascii c in
  if (65 <=? n) && (n <=? 90) then Some (n - 65)
  else if (97 <=? n) && (n <=? 122) then Some (n - 71)
  else if (48 <=? n) && (n <=? 57) then Some (n + 4)
  else if n =? 43 then Some 62
  else if n =? 47 then Some 63
  else None.

(** The sextets up to the padding, or up to the end. *)
Fixpoint sextets (s : string) : list N :=
  match s with
  | EmptyString => []
  | String c rest =>
      match sextet c with
      | Some v => v :: sextets rest
      | None => []
      end
  end.

Definition byte_of (n : N) : byte :=
  match Byte.of_N (n mod 256) with
  | Some b => b
  | None => x00
  end.

Fixpoint octets (l : list N) : list byte :=
  match l with
  | a :: b :: c :: d :: rest =>
      byte_of (a * 4 + b / 16) :: byte_of (b mod 16 * 16 + c / 4)
        :: byte_of (c mod 4 * 64 + d) :: octets rest
  | [a; b; c] => [byte_of (a * 4 + b / 16); byte_of (b mod 16 * 16 + c / 4)]
  | [a; b] => [byte_of (a * 4 + b / 16)]
  | _ => []
  end.

(** Base64 as in RFC 4648, and text held as its UTF-8 bytes.  This is not
    the decoder of Node: it stops at the first character outside the
    alphabet, has no URL-safe alphabet, and keeps bytes that are not valid
    UTF-8 where Node writes U+FFFD.  It agrees with Node on canonical
    base64 of ASCII text, which is what the test vectors use. *)
#[export] Instance runtime : NodeRuntime := {|
  Buffer_from_base64 := fun s => octets (sextets s);
  Buffer_toString_utf8 := string_of_list_byte
|}.

(** The chain of the example of the specification, section 8. *)
Definition example_chain : Chain :=
  mkChain 2
          (fun i => if i =? 0 then 101 else 102)
          (fun id => if id =? 101 then "data:image/svg+xml;base64,aGVsbG8="
                     else "data:image/svg+xml;base64,PHN2Zy8+").

(** A chain whose first token, id 7, has a URI without a comma. *)
Definition comma_free_chain : Chain :=
  mkChain 2 (fun i => i + 7)
          (fun id => if id =? 7 then "about:blank"
                     else "data:image/svg+xml;base64,PHN2Zy8+").

Definition empty_store : Store := mkStore [] [] 0.

(** A tick that cannot reach the RPC endpoint. *)
Definition offline : Tick :=
  mkTick (Some NetworkError) None (fun _ => None) (fun _ => None)
         (fun _ => None) (fun _ => None) (fun _ => 0).

(** A tick whose read of [totalSupply] fails. *)
Definition supply_unreadable : Tick :=
  mkTick None (Some CallException) (fun _ => None) (fun _ => None)
         (fun _ => None) (fun _ => None) (fun _ => 0).

End Reference.

(** ** Notions the properties are stated with *)

(** The [insertOne] calls of a trace: collection and document, in order. *)
Fixpoint inserts (evs : list Event) : list (CollName * Doc) :=
  match evs with
  | [] => []
  | DbInsertOne c d :: rest => (c, d) :: inserts rest
  | _ :: rest => inserts rest
  end.

(** The indices at which a trace calls [tokenByIndex]. *)
Fixpoint attempted (evs : list Event) : list N :=
  match evs with
  | [] => []
  | RpcTokenByIndex i :: rest => i :: attempted rest
  | _ :: rest => attempted rest
  end.

(** The calls of a trace on the store. *)
Fixpoint store_calls (evs : list Event) : list Event :=
  match evs with
  | [] => []
  | DbFindOne c k :: rest => DbFindOne c k :: store_calls rest
  | DbInsertOne c d :: rest => DbInsertOne c d :: store_calls rest
  | DbUpdateOne c k x :: rest => DbUpdateOne c k x :: store_calls rest
  | DbFindAll c :: rest => DbFindAll c :: store_calls rest
  | _ :: rest => store_calls rest
  end.

(** What a tick that gets its connection does before the loop. *)
Definition connected_prefix : list Event :=
  [RpcGetNetwork; ConsoleLog ["Connected to the network"]; RpcTotalSupply].

(** The data-model invariant of a keyed collection: at most one document
    per [tokenId]. *)
Definition unique_keys (docs : list Doc) : Prop :=
  forall key, (count_key key docs <= 1)%nat.

Section Notions.

Context {rt : NodeRuntime}.
Variable chain : Chain.

(** The tick reaches the end of its [try] block: the connection is
    acquired, and neither the read of [totalSupply] nor any token
    throws. *)
Definition completes (t : Tick) (st : Store) : Prop :=
  getNetwork_fault t = None /\
  completion (reconcile_pass chain t st) = Normal tt.

(** The tick, started in [st], goes through the indices below [i] and
    the token at index [i] throws [e]. *)
Definition error_at (t : Tick) (st : Store) (i : N) (e : Err) : Prop :=
  getNetwork_fault t = None /\
  totalSupply_fault t = None /\
  i < chain_totalSupply chain /\
  let before := for_loop (reconcile_token chain t) (N.to_nat i) 0 st in
  completion before = Normal tt /\
  completion (reconcile_token chain t i (store_after before)) = Thrown e.

(** The document was stored from [d] by [insertOne]. *)
Definition stored_from (d stored : Doc) : Prop :=
  exists oid, stored = ("_id", VObjectId oid) :: d.

(** Shape of a Token Record of the reconciler, as handed to [insertOne]:
    the three fields, the key of a token below [totalSupply], a string. *)
Definition reconciled_shape (d : Doc) : Prop :=
  field_names d = ["tokenId"; "svg"; "createdAt"] /\
  (exists i, i < chain_totalSupply chain /\
             field "tokenId" d
             = Some (VString (toString (chain_tokenByIndex chain i)))) /\
  (exists s, field "svg" d = Some (VString s)) /\
  (exists ms, field "createdAt" d = Some (VDate ms)).

End Notions.


(** ** The scheduler and further notions *)

Section Scheduler.

Context {rt : NodeRuntime}.
Variable chain : Chain.

(** [startPeriodicFetch()], lines 102-107: the callback of [setInterval],
    fired once per element of [ticks], each firing after the previous one
    has returned. *)
Fixpoint startPeriodicFetch (ticks : list Tick) : Task unit :=
  match ticks with
  | [] => ret tt
  | t :: rest =>
      console_log ["Initiating periodic SVG fetch..."] ;;
      fetchAndStoreSVGs chain t ;;
      startPeriodicFetch rest
  end.

(** The two halves of one iteration, on either side of the [await] of
    [findOne]: lines 71-76, the reads of the chain and the lookup, and
    lines 77-93, what the iteration does with the answers.  The event loop
    can run another task between the two. *)
Definition token_lookup (t : Tick) (i : N)
  : Task (N * string * option Doc) :=
  tokenId <- call (RpcTokenByIndex i) (tokenByIndex_fault t i)
                  (ret (chain_tokenByIndex chain i)) ;;
  tokenURI <- call (RpcTokenURI tokenId) (tokenURI_fault t i)
                   (ret (chain_tokenURI chain tokenId)) ;;
  existingToken <- findOne (findOne_fault t i) svgs (toString tokenId) ;;
  ret (tokenId, tokenURI, existingToken).

Definition token_store (t : Tick) (i : N)
  (found : N * string * option Doc) : Task unit :=
  let '(tokenId, tokenURI, existingToken) := found in
  match existingToken with
  | Some _ =>
      console_log
        [("Token ID " ++ toString tokenId ++ " already exists, skipping.")
           %string]
  | None =>
      svgContent <- decode_svg tokenURI ;;
      console_log
        [("SVG content for token ID " ++ toString tokenId ++ ":")%string;
         svgContent] ;;
      insertOne (insertOne_fault t i) svgs
                (token_record tokenId svgContent (clock t i)) ;;
      console_log [("Stored SVG for token ID " ++ toString tokenId)%string]
  end.

(** Every index below [totalSupply] has a document under its key. *)
Definition covered (st : Store) : Prop :=
  forall j, j < chain_totalSupply chain ->
    existsb (matches (toString (chain_tokenByIndex chain j))) (coll_svgs st)
    = true.

End Scheduler.

(** [segs.join(sep)] for a one-character separator. *)
Fixpoint join (sep : ascii) (segs : list string) : string :=
  match segs with
  | [] => EmptyString
  | [seg] => seg
  | seg :: rest => (seg ++ String sep (join sep rest))%string
  end.

(** The text of the last event for [id] that the store accepted. *)
Fixpoint last_accepted (id : N) (es : list TextSet) : option string :=
  match es with
  | [] => None
  | e :: rest =>
      match last_accepted id rest with
      | Some text => Some text
      | None =>
          match ev_fault e with
          | Some _ => None
          | None => if ev_tokenId e =? id then Some (ev_text e) else None
          end
      end
  end.

(** The documents of a collection that are not under [key]. *)
Definition others (key : string) (docs : list Doc) : list Doc :=
  filter (fun d => negb (matches key d)) docs.

(** What [GET /get-cat-text/:tokenId] sends for [key] when the lookup
    succeeds: the [text] of the first document under [key], or [null]. *)
Definition stored_text (key : string) (st : Store) : Value :=
  match find (matches key) (coll_catTexts st) with
  | Some d => prop "text" d
  | None => VNull
  end.

(** A chain whose token 7 has a URI with a second comma. *)
Definition two_comma_chain : Chain :=
  mkChain 1 (fun _ => 7)
          (fun _ => "data:image/svg+xml;base64,aGVsbG8=,PHN2Zy8+").

(** * Properties *)

(** ** Strings *)

Lemma toString_inj (m n : N) : toString m = toString n -> m = n.
Proof.
  unfold toString. intros H.
  apply DecimalN.Unsigned.to_uint_inj.
  assert (nonnil : forall k, N.to_uint k <> Decimal.Nil).
  { intros [|p]; simpl; [discriminate | apply DecimalPos.Unsigned.to_uint_nonnil]. }
  pose proof (NilZero.usu _ (nonnil m)) as Hm.
  pose proof (NilZero.usu _ (nonnil n)) as Hn.
  rewrite H in Hm. rewrite Hm in Hn. now inversion Hn.
Qed.

Lemma split_without_sep (sep : ascii) (s : string) :
  occurs sep s = false -> split sep s = [s].
Proof.
  induction s as [|c s IH]; simpl; [reflexivity|].
  intros H. apply orb_false_iff in H. destruct H as [Hc Hs].
  rewrite Hc, (IH Hs). reflexivity.
Qed.

Lemma split_append (sep : ascii) (p s : string) :
  occurs sep p = false ->
  split sep (p ++ String sep s)%string = p :: split sep s.
Proof.
  induction p as [|c p IH]; simpl.
  - intros _. rewrite Ascii.eqb_refl. reflexivity.
  - intros H. apply orb_false_iff in H. destruct H as [Hc Hp].
    rewrite Hc, (IH Hp). reflexivity.
Qed.

Lemma base64_payload_comma_free (s : string) :
  base64_payload s = true -> occurs "," s = false.
Proof.
  induction s as [|c s IH]; simpl; [reflexivity|].
  intros H. apply andb_true_iff in H. destruct H as [Hc Hs].
  rewrite (IH Hs), orb_false_r.
  destruct (Ascii.eqb_spec c ","); [subst c; discriminate Hc | reflexivity].
Qed.

(** ** Documents *)

Lemma existsb_find {A} (p : A -> bool) (l : list A) :
  existsb p l = match find p l with Some _ => true | None => false end.
Proof.
  induction l as [|x l IH]; simpl; [reflexivity|].
  destruct (p x); simpl; [reflexivity | exact IH].
Qed.

Lemma field_set_other (name other : string) (v : Value) (d : Doc) :
  other <> name -> field other (set_field name v d) = field other d.
Proof.
  intros Hne. induction d as [|[k w] d IH]; simpl.
  - destruct (String.eqb_spec name other); [congruence | reflexivity].
  - destruct (String.eqb_spec k name); simpl.
    + subst k. destruct (String.eqb_spec name other); [congruence | reflexivity].
    + rewrite IH. reflexivity.
Qed.

Lemma field_set_same (name : string) (v : Value) (d : Doc) :
  field name (set_field name v d) = Some v.
Proof.
  induction d as [|[k w] d IH]; simpl.
  - rewrite String.eqb_refl. reflexivity.
  - destruct (String.eqb_spec k name) as [->|Hne]; simpl.
    + rewrite String.eqb_refl. reflexivity.
    + destruct (String.eqb_spec k name); [contradiction | exact IH].
Qed.

Lemma matches_set_text (key : string) (v : Value) (d : Doc) :
  matches key (set_field "text" v d) = matches key d.
Proof.
  unfold matches. rewrite field_set_other; [reflexivity | discriminate].
Qed.

Lemma count_key_app (key : string) (l1 l2 : list Doc) :
  count_key key (l1 ++ l2) = (count_key key l1 + count_key key l2)%nat.
Proof.
  unfold count_key. rewrite filter_app, length_app. reflexivity.
Qed.

Lemma count_key_zero (key : string) (l : list Doc) :
  existsb (matches key) l = false <-> count_key key l = O.
Proof.
  unfold count_key. induction l as [|d l IH]; simpl; [tauto|].
  destruct (matches key d); simpl; [split; discriminate | exact IH].
Qed.

(** ** One token *)

Section Token.

Context {rt : NodeRuntime}.
Variable chain : Chain.

Abbreviation key_at i := (toString (chain_tokenByIndex chain i)).
Abbreviation uri_at i := (chain_tokenURI chain (chain_tokenByIndex chain i)).

Ltac token_cases t i st :=
  unfold reconcile_token, findOne, insertOne, decode_svg, console_log,
    emit, bind, call, ret, throw, completion, store_after, events;
  destruct (tokenByIndex_fault t i) eqn:Fidx; cbv beta iota;
  [| destruct (tokenURI_fault t i) eqn:Furi; cbv beta iota;
     [| destruct (findOne_fault t i) eqn:Ffind; cbv beta iota;
        [| change (coll svgs st) with (coll_svgs st);
           destruct (find (matches (key_at i)) (coll_svgs st)) eqn:Hfind;
           cbv beta iota;
           [| destruct (nth_error (split "," (uri_at i)) 1) eqn:Hseg;
              cbv beta iota;
              [destruct (insertOne_fault t i) eqn:Fins |] ] ] ] ];
  simpl.

Lemma token_thrown_store t i st e :
  completion (reconcile_token chain t i st) = Thrown e ->
  store_after (reconcile_token chain t i st) = st.
Proof. token_cases t i st; intros H; try reflexivity; discriminate H. Qed.

Lemma token_frame t i st :
  store_after (reconcile_token chain t i st) = st \/
  exists d,
    In (DbInsertOne svgs d) (events (reconcile_token chain t i st)) /\
    store_after (reconcile_token chain t i st) =
      mkStore (coll_svgs st ++ [("_id", VObjectId (next_oid st)) :: d])
              (coll_catTexts st) (N.succ (next_oid st)).
Proof.
  token_cases t i st; auto.
  right. eexists. split; [|reflexivity]. simpl. tauto.
Qed.

Lemma token_present t i st :
  completion (reconcile_token chain t i st) = Normal tt ->
  existsb (matches (key_at i))
          (coll_svgs (store_after (reconcile_token chain t i st))) = true.
Proof.
  token_cases t i st; intros H; try discriminate H.
  - rewrite existsb_find, Hfind. reflexivity.
  - rewrite existsb_app. simpl. unfold matches. simpl.
    rewrite String.eqb_refl. now rewrite !orb_true_r.
Qed.

Lemma token_noop t i st :
  existsb (matches (key_at i)) (coll_svgs st) = true ->
  store_after (reconcile_token chain t i st) = st /\
  forall c d, ~ In (DbInsertOne c d) (events (reconcile_token chain t i st)).
Proof.
  rewrite existsb_find.
  token_cases t i st; intros H; try discriminate H;
    (split; [reflexivity | intros c d' Hin; simpl in Hin;
                           repeat destruct Hin as [Hin|Hin];
                           try discriminate Hin; exact Hin]).
Qed.

Lemma token_noop_normal t i st :
  tokenByIndex_fault t i = None ->
  tokenURI_fault t i = None ->
  findOne_fault t i = None ->
  existsb (matches (key_at i)) (coll_svgs st) = true ->
  completion (reconcile_token chain t i st) = Normal tt.
Proof.
  rewrite existsb_find. intros F1 F2 F3.
  token_cases t i st; intros H; try discriminate; reflexivity.
Qed.

Lemma token_normal_faults t i st :
  completion (reconcile_token chain t i st) = Normal tt ->
  tokenByIndex_fault t i = None /\ tokenURI_fault t i = None /\
  findOne_fault t i = None.
Proof. token_cases t i st; intros H; try discriminate H; auto. Qed.

Lemma token_insert_event t i st c d :
  In (DbInsertOne c d) (events (reconcile_token chain t i st)) ->
  c = svgs /\
  exists payload,
    nth_error (split "," (uri_at i)) 1 = Some payload /\
    d = token_record (chain_tokenByIndex chain i)
          (Buffer_toString_utf8 (Buffer_from_base64 payload)) (clock t i).
Proof.
  token_cases t i st; intros Hin;
    repeat destruct Hin as [Hin|Hin]; try discriminate Hin;
    try contradiction;
    inversion Hin; subst; (split; [reflexivity|]); eexists;
    (split; [reflexivity|]); reflexivity.
Qed.

Lemma token_rpc_event t i st j :
  In (RpcTokenByIndex j) (events (reconcile_token chain t i st)) -> j = i.
Proof.
  token_cases t i st; intros Hin;
    repeat destruct Hin as [Hin|Hin]; try discriminate Hin;
    try contradiction; now inversion Hin.
Qed.

Lemma token_rpc_attempted t i st :
  In (RpcTokenByIndex i) (events (reconcile_token chain t i st)).
Proof. token_cases t i st; tauto. Qed.

Lemma token_catTexts t i st :
  coll_catTexts (store_after (reconcile_token chain t i st)) =
  coll_catTexts st.
Proof. token_cases t i st; reflexivity. Qed.

End Token.

(** ** The loop *)

Section Loop.

Context {rt : NodeRuntime}.
Variable chain : Chain.

Abbreviation key_of i := (toString (chain_tokenByIndex chain i)).
Abbreviation uri_of i := (chain_tokenURI chain (chain_tokenByIndex chain i)).
Abbreviation loop t := (for_loop (reconcile_token chain t)).

Lemma for_loop_step (body : N -> Task unit) k i st :
  for_loop body (S k) i st =
  match body i st with
  | (Normal _, st1, ev1) =>
      match for_loop body k (N.succ i) st1 with
      | (r, st2, ev2) => (r, st2, ev1 ++ ev2)
      end
  | (Thrown e, st1, ev1) => (Thrown e, st1, ev1)
  end.
Proof. reflexivity. Qed.

(** Unfold one iteration and name its result and that of the rest. *)
Ltac loop_step t k i st Hstep Hrest :=
  rewrite (for_loop_step (reconcile_token chain t) k i st);
  let st1 := fresh "st1" in
  let ev1 := fresh "ev1" in
  let st2 := fresh "st2" in
  let ev2 := fresh "ev2" in
  let r := fresh "r" in
  let e := fresh "e" in
  destruct (reconcile_token chain t i st) as [[[[]|e] st1] ev1] eqn:Hstep;
  [destruct (for_loop (reconcile_token chain t) k (N.succ i) st1)
     as [[r st2] ev2] eqn:Hrest |];
  unfold completion, store_after, events in *; simpl fst in *; simpl snd in *.

Lemma loop_frame t k : forall i st,
  exists new,
    coll_svgs (store_after (loop t k i st)) = coll_svgs st ++ new /\
    coll_catTexts (store_after (loop t k i st)) = coll_catTexts st /\
    Forall (fun s => exists d, stored_from d s /\
                       In (DbInsertOne svgs d) (events (loop t k i st))) new.
Proof.
  induction k as [|k IH]; intros i st.
  - exists []. simpl. rewrite app_nil_r. auto.
  - pose proof (token_frame chain t i st) as Hf.
    pose proof (token_catTexts chain t i st) as Hc.
    pose proof (token_thrown_store chain t i st) as Ht.
    loop_step t k i st Hstep Hrest.
    + destruct (IH (N.succ i) st1) as (new & Hs & Hct & Hall).
      rewrite Hrest in Hs, Hct, Hall. simpl in Hs, Hct, Hall.
      assert (Hlift : Forall (fun s => exists d, stored_from d s /\
                         In (DbInsertOne svgs d) (ev1 ++ ev2)) new).
      { eapply Forall_impl; [|exact Hall]. intros s (d & Hd & Hin).
        exists d. split; [exact Hd | apply in_or_app; now right]. }
      destruct Hf as [Hf | (d & Hin & Hf)]; subst st1.
      * exists new. auto.
      * exists ((("_id", VObjectId (next_oid st)) :: d) :: new).
        simpl in Hs, Hct. rewrite Hs, <- app_assoc. simpl.
        repeat split; [exact Hct|]. constructor; [|exact Hlift].
        exists d. split; [eexists; reflexivity | apply in_or_app; now left].
    + exists []. rewrite app_nil_r. rewrite (Ht e eq_refl). auto.
Qed.

Lemma loop_keeps_present t k i st key :
  existsb (matches key) (coll_svgs st) = true ->
  existsb (matches key) (coll_svgs (store_after (loop t k i st))) = true.
Proof.
  intros H. destruct (loop_frame t k i st) as (new & Hs & _).
  rewrite Hs, existsb_app, H. reflexivity.
Qed.

Lemma loop_complete t k : forall i st,
  completion (loop t k i st) = Normal tt ->
  forall j, i <= j < i + N.of_nat k ->
    existsb (matches (key_of j))
            (coll_svgs (store_after (loop t k i st))) = true.
Proof.
  induction k as [|k IH]; intros i st Hc j Hj; [lia|].
  pose proof (token_present chain t i st) as Hp.
  pose proof (loop_keeps_present t k (N.succ i)) as Hk.
  specialize (IH (N.succ i)).
  revert Hc. loop_step t k i st Hstep Hrest; intros Hc; [|discriminate Hc].
  destruct (N.eq_dec j i) as [->|Hne].
  - specialize (Hk st1 (key_of i) (Hp eq_refl)).
    rewrite Hrest in Hk. exact Hk.
  - specialize (IH st1). rewrite Hrest in IH. apply IH; [exact Hc | lia].
Qed.

Lemma loop_noop t k : forall i st,
  (forall j, i <= j < i + N.of_nat k ->
     existsb (matches (key_of j)) (coll_svgs st) = true) ->
  store_after (loop t k i st) = st /\
  forall c d, ~ In (DbInsertOne c d) (events (loop t k i st)).
Proof.
  induction k as [|k IH]; intros i st Hall.
  - simpl. auto.
  - destruct (token_noop chain t i st) as [Hs Hev]; [apply Hall; lia|].
    specialize (IH (N.succ i) st).
    loop_step t k i st Hstep Hrest; subst st1.
    + rewrite Hrest in IH. destruct IH as [IHs IHev].
      { intros j Hj. apply Hall. lia. }
      split; [exact IHs|]. intros c d Hin. apply in_app_or in Hin.
      destruct Hin as [Hin|Hin]; [exact (Hev c d Hin) | exact (IHev c d Hin)].
    + split; [reflexivity | exact Hev].
Qed.

Lemma loop_insert_event t k : forall i st c d,
  In (DbInsertOne c d) (events (loop t k i st)) ->
  c = svgs /\
  exists j payload,
    i <= j < i + N.of_nat k /\
    nth_error (split "," (uri_of j)) 1 = Some payload /\
    d = token_record (chain_tokenByIndex chain j)
          (Buffer_toString_utf8 (Buffer_from_base64 payload)) (clock t j).
Proof.
  induction k as [|k IH]; intros i st c d; [simpl; tauto|].
  pose proof (token_insert_event chain t i st c d) as Ht.
  specialize (IH (N.succ i)).
  loop_step t k i st Hstep Hrest; intros Hin.
  - apply in_app_or in Hin. destruct Hin as [Hin|Hin].
    + destruct (Ht Hin) as (-> & payload & Hseg & ->).
      split; [reflexivity|]. exists i, payload. repeat split; auto; lia.
    + specialize (IH st1 c d). rewrite Hrest in IH.
      destruct (IH Hin) as (-> & j & payload & Hj & Hseg & ->).
      split; [reflexivity|]. exists j, payload. repeat split; auto; lia.
  - destruct (Ht Hin) as (-> & payload & Hseg & ->).
    split; [reflexivity|]. exists i, payload. repeat split; auto; lia.
Qed.

Lemma loop_rpc_event t k : forall i st j,
  In (RpcTokenByIndex j) (events (loop t k i st)) -> i <= j < i + N.of_nat k.
Proof.
  induction k as [|k IH]; intros i st j; [simpl; tauto|].
  pose proof (token_rpc_event chain t i st j) as Ht.
  specialize (IH (N.succ i)).
  loop_step t k i st Hstep Hrest; intros Hin.
  - apply in_app_or in Hin. destruct Hin as [Hin|Hin].
    + rewrite (Ht Hin). lia.
    + specialize (IH st1 j). rewrite Hrest in IH. specialize (IH Hin). lia.
  - rewrite (Ht Hin). lia.
Qed.

Lemma loop_attempts t k : forall i st,
  completion (loop t k i st) = Normal tt ->
  forall j, i <= j < i + N.of_nat k ->
    In (RpcTokenByIndex j) (events (loop t k i st)).
Proof.
  induction k as [|k IH]; intros i st Hc j Hj; [lia|].
  pose proof (token_rpc_attempted chain t i st) as Ht.
  specialize (IH (N.succ i)).
  revert Hc. loop_step t k i st Hstep Hrest; intros Hc; [|discriminate Hc].
  apply in_or_app. destruct (N.eq_dec j i) as [->|Hne]; [now left|].
  right. specialize (IH st1). rewrite Hrest in IH. apply IH; [exact Hc|lia].
Qed.

(** A loop whose iteration number [a] throws stops there. *)
Lemma loop_stops (body : N -> Task unit) a b e : forall i st,
  completion (for_loop body a i st) = Normal tt ->
  completion (body (i + N.of_nat a) (store_after (for_loop body a i st)))
    = Thrown e ->
  for_loop body (a + S b) i st =
  (Thrown e,
   store_after (body (i + N.of_nat a) (store_after (for_loop body a i st))),
   events (for_loop body a i st)
     ++ events (body (i + N.of_nat a) (store_after (for_loop body a i st)))).
Proof.
  induction a as [|a IH]; intros i st Hc Ht.
  - change (0 + S b)%nat with (S b). rewrite for_loop_step.
    change (for_loop body 0 i st) with (ret tt st) in *.
    unfold ret, completion, store_after, events in *.
    cbn [fst snd N.of_nat app] in *. rewrite N.add_0_r in *.
    destruct (body i st) as [[[[]|e'] st1] ev1]; cbn [fst snd] in Ht |- *;
      [discriminate Ht | now inversion Ht].
  - change (S a + S b)%nat with (S (a + S b)).
    rewrite (for_loop_step body (a + S b)).
    rewrite (for_loop_step body a) in Hc, Ht |- *.
    replace (i + N.of_nat (S a)) with (N.succ i + N.of_nat a) in * by lia.
    unfold completion, store_after, events in *.
    destruct (body i st) as [[[[]|e'] st1] ev1]; [|discriminate Hc].
    specialize (IH (N.succ i) st1).
    unfold completion, store_after, events in IH.
    destruct (for_loop body a (N.succ i) st1) as [[r st2] ev2].
    simpl in Hc, Ht, IH |- *. rewrite (IH Hc Ht). simpl.
    rewrite app_assoc. reflexivity.
Qed.

(** With the same failures, a second run of the loop changes nothing. *)
Lemma loop_twice t k : forall i st,
  store_after (loop t k i (store_after (loop t k i st))) =
  store_after (loop t k i st).
Proof.
  induction k as [|k IH]; intros i st; [reflexivity|].
  pose proof (token_present chain t i st) as Hp.
  pose proof (token_normal_faults chain t i st) as Hn.
  pose proof (token_thrown_store chain t i st) as Ht.
  pose proof (loop_keeps_present t k (N.succ i)) as Hk.
  specialize (IH (N.succ i)).
  rewrite (for_loop_step _ k i st).
  destruct (reconcile_token chain t i st) as [[[[]|e] st1] ev1] eqn:Hstep;
    unfold completion, store_after, events in *; simpl in Hp, Hn, Ht.
  - specialize (IH st1). specialize (Hk st1 _ (Hp eq_refl)).
    destruct (for_loop (reconcile_token chain t) k (N.succ i) st1)
      as [[r st2] ev2] eqn:Hrest. cbn [fst snd] in IH, Hk |- *.
    destruct (Hn eq_refl) as (F1 & F2 & F3).
    pose proof (token_noop chain t i st2 Hk) as [Hs _].
    pose proof (token_noop_normal chain t i st2 F1 F2 F3 Hk) as Hc.
    rewrite for_loop_step. unfold completion, store_after in Hs, Hc.
    destruct (reconcile_token chain t i st2) as [[[[]|e] st3] ev3];
      simpl in Hs, Hc; [|discriminate Hc]. subst st3.
    destruct (for_loop (reconcile_token chain t) k (N.succ i) st2)
      as [[r' st4] ev4]. exact IH.
  - cbn [fst snd]. rewrite (Ht e eq_refl).
    rewrite for_loop_step, Hstep. exact (Ht e eq_refl).
Qed.

End Loop.

(** ** Traces *)

Lemma inserts_In (evs : list Event) c d :
  In (c, d) (inserts evs) <-> In (DbInsertOne c d) evs.
Proof.
  induction evs as [|ev evs IH]; simpl; [tauto|].
  destruct ev; simpl; rewrite IH; intuition congruence.
Qed.

Lemma inserts_nil (evs : list Event) :
  (forall c d, ~ In (DbInsertOne c d) evs) -> inserts evs = [].
Proof.
  intros H. destruct (inserts evs) as [|[c d] l] eqn:E; [reflexivity|].
  exfalso. apply (H c d), inserts_In. rewrite E. now left.
Qed.

Lemma attempted_In (evs : list Event) j :
  In j (attempted evs) <-> In (RpcTokenByIndex j) evs.
Proof.
  induction evs as [|ev evs IH]; simpl; [tauto|].
  destruct ev; simpl; rewrite IH; intuition congruence.
Qed.

(** ** One tick *)

Section Pass.

Context {rt : NodeRuntime}.
Variable chain : Chain.

Abbreviation tick_loop t st :=
  (for_loop (reconcile_token chain t) (N.to_nat (chain_totalSupply chain)) 0
            st).

Lemma reconcile_pass_run t st :
  totalSupply_fault t = None ->
  reconcile_pass chain t st =
  match tick_loop t st with
  | (Normal _, st1, ev) =>
      (Normal tt, st1,
       RpcTotalSupply :: ev ++ [ConsoleLog ["Finished fetching and storing SVGs"]])
  | (Thrown e, st1, ev) => (Thrown e, st1, RpcTotalSupply :: ev)
  end.
Proof.
  intros F. unfold reconcile_pass, bind, call, ret, console_log, emit.
  rewrite F. cbv beta iota.
  destruct (tick_loop t st) as [[[[]|e] st1] ev]; simpl; reflexivity.
Qed.

Lemma reconcile_pass_no_supply t st e :
  totalSupply_fault t = Some e ->
  reconcile_pass chain t st = (Thrown e, st, [RpcTotalSupply]).
Proof.
  intros F. unfold reconcile_pass, bind, call. rewrite F. reflexivity.
Qed.

Lemma fetch_offline t st e :
  getNetwork_fault t = Some e ->
  fetchAndStoreSVGs chain t st =
  (Normal tt, st,
   [RpcGetNetwork;
    ConsoleError "Failed to connect to the network:" (Some e);
    ConsoleError "Could not connect to the network. Skipping SVG fetch." None]).
Proof.
  intros F. unfold fetchAndStoreSVGs, getProvider, try_catch, bind, call.
  rewrite F. reflexivity.
Qed.

Lemma fetch_connected t st :
  getNetwork_fault t = None ->
  fetchAndStoreSVGs chain t st =
  match reconcile_pass chain t st with
  | (Normal _, st1, ev) =>
      (Normal tt, st1,
       [RpcGetNetwork; ConsoleLog ["Connected to the network"]] ++ ev)
  | (Thrown e, st1, ev) =>
      (Normal tt, st1,
       [RpcGetNetwork; ConsoleLog ["Connected to the network"]] ++ ev
         ++ [ConsoleError "Error fetching and storing SVGs:" (Some e)])
  end.
Proof.
  intros F.
  unfold fetchAndStoreSVGs, getProvider, try_catch, bind, call, ret,
    console_log, console_error, emit.
  rewrite F. cbv beta iota.
  destruct (reconcile_pass chain t st) as [[[[]|e] st1] ev]; reflexivity.
Qed.

(** The three ways a tick can go. *)
Lemma fetch_cases t st :
  (exists e, getNetwork_fault t = Some e /\
     fetchAndStoreSVGs chain t st =
     (Normal tt, st,
      [RpcGetNetwork;
       ConsoleError "Failed to connect to the network:" (Some e);
       ConsoleError "Could not connect to the network. Skipping SVG fetch."
                    None])) \/
  (exists e, getNetwork_fault t = None /\ totalSupply_fault t = Some e /\
     fetchAndStoreSVGs chain t st =
     (Normal tt, st,
      connected_prefix
        ++ [ConsoleError "Error fetching and storing SVGs:" (Some e)])) \/
  (getNetwork_fault t = None /\ totalSupply_fault t = None /\
   fetchAndStoreSVGs chain t st =
   (Normal tt, store_after (tick_loop t st),
    connected_prefix ++ events (tick_loop t st)
      ++ [match completion (tick_loop t st) with
          | Normal _ => ConsoleLog ["Finished fetching and storing SVGs"]
          | Thrown e =>
              ConsoleError "Error fetching and storing SVGs:" (Some e)
          end])).
Proof.
  destruct (getNetwork_fault t) as [e|] eqn:Fnet.
  - left. exists e. split; [reflexivity | now apply fetch_offline].
  - right. rewrite (fetch_connected t st Fnet).
    destruct (totalSupply_fault t) as [e|] eqn:Fsup.
    + left. exists e. rewrite (reconcile_pass_no_supply t st e Fsup). auto.
    + right. rewrite (reconcile_pass_run t st Fsup).
      unfold completion, store_after, events.
      destruct (tick_loop t st) as [[[[]|e] st1] ev]; simpl; auto.
Qed.

Lemma fetch_never_throws t st :
  completion (fetchAndStoreSVGs chain t st) = Normal tt.
Proof.
  destruct (fetch_cases t st) as [(e & _ & ->)|[(e & _ & _ & ->)|(_ & _ & ->)]];
    reflexivity.
Qed.

Lemma completes_loop t st :
  completes chain t st ->
  totalSupply_fault t = None /\ completion (tick_loop t st) = Normal tt.
Proof.
  intros [Fnet Hc]. destruct (totalSupply_fault t) as [e|] eqn:Fsup.
  - rewrite (reconcile_pass_no_supply t st e Fsup) in Hc. discriminate Hc.
  - split; [reflexivity|]. rewrite (reconcile_pass_run t st Fsup) in Hc.
    unfold completion in *.
    destruct (tick_loop t st) as [[[[]|e] st1] ev]; simpl in *;
      [reflexivity | discriminate Hc].
Qed.

Lemma fetch_store t st :
  store_after (fetchAndStoreSVGs chain t st) = st \/
  store_after (fetchAndStoreSVGs chain t st) = store_after (tick_loop t st).
Proof.
  destruct (fetch_cases t st) as [(e & _ & ->)|[(e & _ & _ & ->)|(_ & _ & ->)]];
    auto.
Qed.

Lemma fetch_insert_event t st c d :
  In (DbInsertOne c d) (events (fetchAndStoreSVGs chain t st)) ->
  In (DbInsertOne c d) (events (tick_loop t st)) /\
  store_after (fetchAndStoreSVGs chain t st) = store_after (tick_loop t st).
Proof.
  destruct (fetch_cases t st) as [(e & _ & ->)|[(e & _ & _ & ->)|(_ & _ & ->)]];
    unfold events; cbn [fst snd]; intros Hin.
  - simpl in Hin.
    repeat destruct Hin as [Hin|Hin]; try discriminate Hin; contradiction.
  - simpl in Hin.
    repeat destruct Hin as [Hin|Hin]; try discriminate Hin; contradiction.
  - split; [|reflexivity].
    apply in_app_or in Hin. destruct Hin as [Hin|Hin].
    { simpl in Hin.
      repeat destruct Hin as [Hin|Hin]; try discriminate Hin; contradiction. }
    apply in_app_or in Hin. destruct Hin as [Hin|Hin]; [exact Hin|].
    destruct Hin as [Hin|[]].
    destruct (completion (tick_loop t st)); discriminate Hin.
Qed.

Lemma record_shape i payload date :
  i < chain_totalSupply chain ->
  reconciled_shape chain
    (token_record (chain_tokenByIndex chain i) payload date).
Proof.
  intros Hi. unfold reconciled_shape, token_record. simpl.
  split; [reflexivity|]. split; [exists i; auto|]. split; eexists; reflexivity.
Qed.

(** After a tick that completes, a key of the supply that was absent
    before is the key of one of the new documents. *)
Lemma completed_tick_has_key t st i new :
  completes chain t st ->
  i < chain_totalSupply chain ->
  coll_svgs (store_after (fetchAndStoreSVGs chain t st))
  = coll_svgs st ++ new ->
  existsb (matches (toString (chain_tokenByIndex chain i))) (coll_svgs st)
  = false ->
  exists d,
    In d new /\
    field "tokenId" d
    = Some (VString (toString (chain_tokenByIndex chain i))).
Proof.
  intros Hc Hi Hnew Habs.
  destruct (completes_loop t st Hc) as [Fsup Hloop]. destruct Hc as [Fnet _].
  destruct (fetch_cases t st)
    as [(e' & F & _)|[(e' & _ & F & _)|(_ & _ & Hrun)]]; try congruence.
  rewrite Hrun in Hnew. unfold store_after at 1 in Hnew. cbn [fst snd] in Hnew.
  pose proof (loop_complete chain t _ 0 st Hloop i) as Hp.
  rewrite Hnew, existsb_app, Habs in Hp. simpl in Hp.
  apply existsb_exists in Hp; [|lia].
  destruct Hp as (d & Hin & Hm). exists d. split; [exact Hin|].
  unfold matches in Hm.
  destruct (field "tokenId" d) as [[]|]; try discriminate.
  apply String.eqb_eq in Hm. now subst.
Qed.

End Pass.

(** * The reconciler *)

Section Reconciler.

Context {rt : NodeRuntime}.
Variable chain : Chain.

Abbreviation pass t st := (fetchAndStoreSVGs chain t st).
Abbreviation supply := (chain_totalSupply chain).
Abbreviation whole_loop t st :=
  (for_loop (reconcile_token chain t) (N.to_nat supply) 0 st).

(** C1, as amended: when the token at index [i] throws [e], the one
    handler around the whole loop catches and logs [e], the tick returns
    normally with the store as the indices below [i] left it, and the
    indices the tick attempts are exactly those up to [i]: no index above
    [i] is attempted in that tick. *)
Theorem token_error_ends_tick t st i e :
  error_at chain t st i e ->
  completion (pass t st) = Normal tt /\
  store_after (pass t st)
  = store_after (for_loop (reconcile_token chain t) (N.to_nat i) 0 st) /\
  In (ConsoleError "Error fetching and storing SVGs:" (Some e))
     (events (pass t st)) /\
  forall j, In j (attempted (events (pass t st))) <-> j <= i.
Proof.
  intros (Fnet & Fsup & Hi & Hbefore & Hthrow).
  split; [apply fetch_never_throws|].
  assert (Hn : N.to_nat supply
               = (N.to_nat i + S (N.to_nat (supply - i - 1)))%nat) by lia.
  pose proof (loop_stops (reconcile_token chain t) (N.to_nat i)
                (N.to_nat (supply - i - 1)) e 0 st Hbefore) as Hstop.
  rewrite N2Nat.id, N.add_0_l in Hstop. specialize (Hstop Hthrow).
  rewrite <- Hn in Hstop.
  destruct (fetch_cases chain t st)
    as [(e' & F & _)|[(e' & _ & F & _)|(_ & _ & Hrun)]]; try congruence.
  rewrite Hrun. unfold completion, store_after, events in *.
  rewrite Hstop. cbn [fst snd].
  split; [exact (token_thrown_store chain t i _ e Hthrow)|].
  split.
  { apply in_or_app. right. apply in_or_app. right. now left. }
  intros j. rewrite attempted_In. split.
  - intros Hin. apply in_app_or in Hin. destruct Hin as [Hin|Hin].
    { simpl in Hin.
      repeat destruct Hin as [Hin|Hin]; try discriminate Hin; contradiction. }
    apply in_app_or in Hin. destruct Hin as [Hin|Hin].
    + apply in_app_or in Hin. destruct Hin as [Hin|Hin].
      * apply loop_rpc_event in Hin. lia.
      * apply token_rpc_event in Hin. lia.
    + destruct Hin as [Hin|[]]. discriminate Hin.
  - intros Hj. apply in_or_app. right. apply in_or_app. left.
    apply in_or_app. destruct (N.eq_dec j i) as [->|Hne].
    + right. apply token_rpc_attempted.
    + left. apply (loop_attempts chain t (N.to_nat i) 0 st Hbefore). lia.
Qed.

(** C2: when a tick over a chain state completes, a second tick over the
    same chain state, whatever fails during it, makes no [insertOne] call
    and leaves the store as the first tick left it. *)
Theorem second_pass_inserts_nothing t1 t2 st :
  completes chain t1 st ->
  inserts (events (pass t2 (store_after (pass t1 st)))) = [] /\
  store_after (pass t2 (store_after (pass t1 st))) = store_after (pass t1 st).
Proof.
  intros Hc. destruct (completes_loop chain t1 st Hc) as [Fsup Hloop].
  destruct Hc as [Fnet _].
  assert (H1 : store_after (pass t1 st) = store_after (whole_loop t1 st)).
  { destruct (fetch_cases chain t1 st)
      as [(e' & F & _)|[(e' & _ & F & _)|(_ & _ & ->)]]; try congruence.
    reflexivity. }
  rewrite H1.
  destruct (loop_noop chain t2 (N.to_nat supply) 0
              (store_after (whole_loop t1 st))) as [Hs Hev].
  { intros j Hj. apply (loop_complete chain t1 _ 0 st Hloop j Hj). }
  split.
  - apply inserts_nil. intros c d Hin.
    apply fetch_insert_event in Hin. exact (Hev c d (proj1 Hin)).
  - destruct (fetch_store chain t2 (store_after (whole_loop t1 st)))
      as [->| ->]; [reflexivity | exact Hs].
Qed.

(** With the same failures too, the second tick changes nothing, whether
    or not the first one completed. *)
Lemma same_tick_twice t st :
  store_after (pass t (store_after (pass t st))) = store_after (pass t st).
Proof.
  destruct (fetch_cases chain t st)
    as [(e & F & ->)|[(e & Fn & F & ->)|(Fn & F & ->)]];
    unfold store_after at 2 3; cbn [fst snd].
  - rewrite (fetch_offline chain t st e F). reflexivity.
  - destruct (fetch_cases chain t st)
      as [(e' & F' & _)|[(e' & _ & _ & ->)|(_ & F' & _)]]; try congruence.
    reflexivity.
  - destruct (fetch_cases chain t (snd (fst (whole_loop t st))))
      as [(e' & F' & _)|[(e' & _ & F' & _)|(_ & _ & ->)]]; try congruence.
    apply loop_twice.
Qed.

(** C3: after a tick that completes, every index below [totalSupply] has
    a document in "svgs" whose [tokenId] is the decimal string of
    [tokenByIndex] at that index. *)
Theorem completed_pass_covers_supply t st i :
  completes chain t st ->
  i < supply ->
  exists d,
    In d (coll_svgs (store_after (pass t st))) /\
    field "tokenId" d = Some (VString (toString (chain_tokenByIndex chain i))).
Proof.
  intros Hc Hi. destruct (completes_loop chain t st Hc) as [Fsup Hloop].
  destruct Hc as [Fnet _].
  destruct (fetch_cases chain t st)
    as [(e' & F & _)|[(e' & _ & F & _)|(_ & _ & ->)]]; try congruence.
  unfold store_after at 1. cbn [fst snd].
  pose proof (loop_complete chain t _ 0 st Hloop i) as Hp.
  apply existsb_exists in Hp; [|lia].
  destruct Hp as (d & Hin & Hm). exists d. split; [exact Hin|].
  unfold matches in Hm. destruct (field "tokenId" d) as [[]|]; try discriminate.
  apply String.eqb_eq in Hm. now subst.
Qed.

(** C4: for a token whose URI is "data:image/svg+xml;base64," followed by
    a base64 payload, the record a tick stores for that token has as [svg]
    the UTF-8 decoding of the decoded payload.  Every document the tick
    adds to "svgs" under the token's key has that [svg]; and when the
    token is at an index below [totalSupply], was not stored before and
    the tick completes, the tick does add such a document. *)
Theorem stored_svg_is_decoded_payload t st id payload :
  chain_tokenURI chain id
  = ("data:image/svg+xml;base64," ++ payload)%string ->
  base64_payload payload = true ->
  exists new,
    coll_svgs (store_after (pass t st)) = coll_svgs st ++ new /\
    (forall d,
        In d new ->
        field "tokenId" d = Some (VString (toString id)) ->
        field "svg" d
        = Some (VString (Buffer_toString_utf8 (Buffer_from_base64 payload))))
    /\
    (forall i,
        i < supply ->
        chain_tokenByIndex chain i = id ->
        existsb (matches (toString id)) (coll_svgs st) = false ->
        completes chain t st ->
        exists d,
          In d new /\
          field "tokenId" d = Some (VString (toString id)) /\
          field "svg" d
          = Some (VString
                    (Buffer_toString_utf8 (Buffer_from_base64 payload)))).
Proof.
  intros Huri Hb64.
  assert (Hall : exists new,
             coll_svgs (store_after (pass t st)) = coll_svgs st ++ new /\
             forall d,
               In d new ->
               field "tokenId" d = Some (VString (toString id)) ->
               field "svg" d
               = Some (VString
                         (Buffer_toString_utf8 (Buffer_from_base64 payload)))).
  { destruct (fetch_store chain t st) as [Hs|Hs]; rewrite Hs.
    { exists []. rewrite app_nil_r. split; [reflexivity | intros d []]. }
    destruct (loop_frame chain t (N.to_nat supply) 0 st)
      as (new & Hnew & _ & Hall).
    exists new. split; [exact Hnew|]. intros d Hin Hkey.
    rewrite Forall_forall in Hall.
    destruct (Hall d Hin) as (d0 & [oid ->] & Hev).
    apply loop_insert_event in Hev.
    destruct Hev as (_ & j & seg & _ & Hseg & ->).
    simpl in Hkey |- *. inversion Hkey as [Hid]. apply toString_inj in Hid.
    rewrite Hid, Huri in Hseg.
    change ("data:image/svg+xml;base64," ++ payload)%string
      with ("data:image/svg+xml;base64" ++ String "," payload)%string in Hseg.
    rewrite split_append in Hseg by reflexivity.
    rewrite (split_without_sep _ _ (base64_payload_comma_free _ Hb64)) in Hseg.
    simpl in Hseg. now inversion Hseg. }
  destruct Hall as (new & Hnew & Hall).
  exists new. split; [exact Hnew|]. split; [exact Hall|].
  intros i Hi Hid Habs Hc. subst id.
  destruct (completed_tick_has_key chain t st i new Hc Hi Hnew Habs)
    as (d & Hin & Hkey).
  exists d. split; [exact Hin|]. split; [exact Hkey|].
  exact (Hall d Hin Hkey).
Qed.

(** C5: when the connection cannot be acquired, the tick makes the one
    attempt, logs twice and returns normally; it makes no call on the
    store and leaves it as it was. *)
Theorem offline_tick_is_silent t st e :
  getNetwork_fault t = Some e ->
  completion (pass t st) = Normal tt /\
  store_after (pass t st) = st /\
  store_calls (events (pass t st)) = [] /\
  events (pass t st) =
  [RpcGetNetwork;
   ConsoleError "Failed to connect to the network:" (Some e);
   ConsoleError "Could not connect to the network. Skipping SVG fetch." None].
Proof.
  intros F. rewrite (fetch_offline chain t st e F). repeat split.
Qed.

(** C8: a tick only appends to "svgs": the documents present before are
    all there afterwards, unchanged and in the same places, and
    "catTexts" is untouched. *)
Theorem reconciler_only_appends t st :
  exists new,
    coll_svgs (store_after (pass t st)) = coll_svgs st ++ new /\
    coll_catTexts (store_after (pass t st)) = coll_catTexts st.
Proof.
  destruct (fetch_store chain t st) as [Hs|Hs]; rewrite Hs.
  - exists []. rewrite app_nil_r. auto.
  - destruct (loop_frame chain t (N.to_nat supply) 0 st) as (new & H1 & H2 & _).
    exists new. auto.
Qed.

(** C10: every document a tick hands to [insertOne] goes to "svgs" and has
    exactly the fields [tokenId], [svg], [createdAt], the first being the
    decimal string of the id of a token below [totalSupply] and the second
    a string; and every document new in "svgs" after the tick is such a
    document under the [_id] the store gave it. *)
Theorem inserted_records_shape t st :
  Forall (fun cd => fst cd = svgs /\ reconciled_shape chain (snd cd))
         (inserts (events (pass t st))) /\
  exists new,
    coll_svgs (store_after (pass t st)) = coll_svgs st ++ new /\
    Forall (fun s => exists d, stored_from d s /\ reconciled_shape chain d) new.
Proof.
  assert (Hshape : forall c d,
             In (DbInsertOne c d) (events (whole_loop t st)) ->
             c = svgs /\ reconciled_shape chain d).
  { intros c d Hin. apply loop_insert_event in Hin.
    destruct Hin as (-> & j & seg & Hj & _ & ->).
    split; [reflexivity|]. apply record_shape. lia. }
  split.
  - apply Forall_forall. intros [c d] Hin. apply inserts_In in Hin.
    apply fetch_insert_event in Hin. exact (Hshape c d (proj1 Hin)).
  - destruct (fetch_store chain t st) as [Hs|Hs]; rewrite Hs.
    + exists []. rewrite app_nil_r. auto.
    + destruct (loop_frame chain t (N.to_nat supply) 0 st)
        as (new & Hnew & _ & Hall).
      exists new. split; [exact Hnew|].
      eapply Forall_impl; [|exact Hall]. intros s (d & Hd & Hin).
      exists d. split; [exact Hd | exact (proj2 (Hshape svgs d Hin))].
Qed.

End Reconciler.

(** * The listener *)

Lemma count_update_first key (p : Doc -> bool) (f : Doc -> Doc) docs :
  (forall d, matches key (f d) = matches key d) ->
  count_key key (update_first p f docs) = count_key key docs.
Proof.
  intros Hf. unfold count_key. induction docs as [|d docs IH]; [reflexivity|].
  simpl. destruct (p d); simpl.
  - rewrite Hf. destruct (matches key d); reflexivity.
  - destruct (matches key d); simpl; rewrite IH; reflexivity.
Qed.

Lemma existsb_update_first key (f : Doc -> Doc) docs :
  (forall d, matches key (f d) = matches key d) ->
  existsb (matches key) (update_first (matches key) f docs)
  = existsb (matches key) docs.
Proof.
  intros Hf. induction docs as [|d docs IH]; [reflexivity|].
  simpl. destruct (matches key d) eqn:Hm; simpl.
  - rewrite Hf, Hm. reflexivity.
  - rewrite Hm, IH. reflexivity.
Qed.

(** In a collection with at most one document under [key], the update of
    the first match reaches every match. *)
Lemma update_first_reaches_all key v docs :
  (count_key key docs <= 1)%nat ->
  forall d,
    In d (update_first (matches key) (set_field "text" v) docs) ->
    matches key d = true ->
    field "text" d = Some v.
Proof.
  unfold count_key. induction docs as [|d0 docs IH]; simpl; [tauto|].
  intros Hcount d Hin Hm. destruct (matches key d0) eqn:Hm0.
  - simpl in Hcount. destruct Hin as [<-|Hin]; [apply field_set_same|].
    assert (Hnone : existsb (matches key) docs = false).
    { apply count_key_zero. unfold count_key. lia. }
    assert (Hsome : existsb (matches key) docs = true).
    { apply existsb_exists. exists d. auto. }
    congruence.
  - destruct Hin as [<-|Hin]; [congruence|]. now apply IH.
Qed.

(** The result of one event that the store accepts. *)
Lemma on_TextSet_stored id text st :
  coll_catTexts (store_after (on_TextSet (mkTextSet None id text) st)) =
  if existsb (matches (toString id)) (coll_catTexts st)
  then update_first (matches (toString id))
                    (set_field "text" (VString text)) (coll_catTexts st)
  else coll_catTexts st ++ [[("_id", VObjectId (next_oid st));
                             ("tokenId", VString (toString id));
                             ("text", VString text)]].
Proof.
  unfold on_TextSet, updateOne_upsert, try_catch, bind, call, console_log,
    emit, store_after. simpl.
  destruct (existsb (matches (toString id)) (coll_catTexts st)); reflexivity.
Qed.

(** An event the store rejects is logged and changes nothing. *)
Lemma on_TextSet_rejected e id text st :
  on_TextSet (mkTextSet (Some e) id text) st =
  (Normal tt, st,
   [ConsoleLog [("TextSet event: TokenID " ++ toString id ++ ", Text: "
                   ++ text)%string];
    DbUpdateOne catTexts (toString id) text;
    ConsoleError "Error storing text in MongoDB:" (Some e)]).
Proof. reflexivity. Qed.

Lemma matches_fresh key key' oid text :
  matches key' [("_id", VObjectId oid); ("tokenId", VString key);
                ("text", VString text)]
  = String.eqb key key'.
Proof. reflexivity. Qed.

(** The listener keeps the keys of "catTexts" unique. *)
Lemma on_TextSet_unique e st :
  unique_keys (coll_catTexts st) ->
  unique_keys (coll_catTexts (store_after (on_TextSet e st))).
Proof.
  intros Hu key'. destruct e as [[err|] id text].
  - rewrite on_TextSet_rejected. apply Hu.
  - rewrite on_TextSet_stored.
    destruct (existsb (matches (toString id)) (coll_catTexts st)) eqn:Hex.
    + rewrite count_update_first; [apply Hu|].
      intros d. apply matches_set_text.
    + rewrite count_key_app. unfold count_key at 2. simpl.
      rewrite matches_fresh. destruct (String.eqb_spec (toString id) key').
      * subst key'. apply count_key_zero in Hex. rewrite Hex. simpl. lia.
      * simpl. specialize (Hu key'). lia.
Qed.

(** C6: on a "catTexts" collection with at most one document for the key
    of [id], the events [(id, a)] and then [(id, b)], both accepted by the
    store, leave exactly one document under that key, and its [text] is
    [b]. *)
Theorem text_upsert_last_write_wins id a b st :
  (count_key (toString id) (coll_catTexts st) <= 1)%nat ->
  let st' := store_after (deliver Subscribed [mkTextSet None id a;
                                              mkTextSet None id b] st) in
  count_key (toString id) (coll_catTexts st') = 1%nat /\
  forall d,
    In d (coll_catTexts st') ->
    matches (toString id) d = true ->
    field "text" d = Some (VString b).
Proof.
  intros Hcount st'.
  set (key := toString id) in *.
  set (st1 := store_after (on_TextSet (mkTextSet None id a) st)).
  assert (Hst' : coll_catTexts st'
                 = coll_catTexts (store_after
                                    (on_TextSet (mkTextSet None id b) st1))).
  { subst st' st1. unfold deliver, bind, ret, store_after.
    destruct (on_TextSet (mkTextSet None id a) st) as [[[[]|e] s1] ev1] eqn:E1.
    - cbn [fst snd].
      destruct (on_TextSet (mkTextSet None id b) s1) as [[[[]|e] s2] ev2];
        reflexivity.
    - unfold on_TextSet, updateOne_upsert, try_catch, bind, call,
        console_log, emit in E1. simpl in E1.
      destruct (existsb (matches (toString id)) (coll_catTexts st));
        discriminate E1. }
  assert (H1 : count_key key (coll_catTexts st1) = 1%nat /\
               existsb (matches key) (coll_catTexts st1) = true).
  { subst st1. rewrite on_TextSet_stored. fold key.
    destruct (existsb (matches key) (coll_catTexts st)) eqn:Hex.
    - rewrite count_update_first by (intros d; apply matches_set_text).
      rewrite existsb_update_first by (intros d; apply matches_set_text).
      split; [|exact Hex].
      destruct (count_key key (coll_catTexts st)) as [|[|n]] eqn:Hc;
        [|reflexivity|lia].
      apply count_key_zero in Hc. congruence.
    - apply count_key_zero in Hex. rewrite count_key_app, existsb_app, Hex.
      unfold count_key at 1. simpl. rewrite !matches_fresh.
      unfold key. rewrite String.eqb_refl. simpl.
      split; [reflexivity | apply orb_true_r]. }
  destruct H1 as [Hone Hex1].
  rewrite Hst', on_TextSet_stored. fold key. rewrite Hex1. split.
  - rewrite count_update_first by (intros d; apply matches_set_text).
    exact Hone.
  - apply update_first_reaches_all. lia.
Qed.

(** * The HTTP handlers *)

Section Handlers.

Context {rt : NodeRuntime}.
Variable chain : Chain.

(** C7: when "catTexts" has no document under the requested [tokenId] and
    the lookup does not fail, the answer is the JSON value [null] with
    status 200. *)
Theorem missing_cat_text_is_null tokenId st :
  existsb (matches tokenId) (coll_catTexts st) = false ->
  get_cat_text None tokenId st =
  (Normal (mkResponse 200 (JsonValue VNull)), st,
   [DbFindOne catTexts tokenId]).
Proof.
  intros H. rewrite existsb_find in H.
  unfold get_cat_text, try_catch, bind, findOne, call, ret. simpl.
  destruct (find (matches tokenId) (coll_catTexts st));
    [discriminate H | reflexivity].
Qed.

(** A failing lookup is the one way to the 500 of this route. *)
Lemma cat_text_store_failure e tokenId st :
  completion (get_cat_text (Some e) tokenId st)
  = Normal (mkResponse 500 (JsonError "Failed to fetch cat text")).
Proof. reflexivity. Qed.

(** The route as written: the handler runs one whole tick before it
    answers, and then always answers 200 with the message.  What fails
    inside the tick is caught and logged inside it (lines 50-53 and 97-99)
    and never reaches the [catch] of the handler (lines 198-201), whose
    500 is therefore never sent. *)
Theorem fetch_svgs_always_answers_message t st :
  fetch_svgs chain t st =
  (Normal (mkResponse 200 (JsonMessage "SVG fetch process initiated")),
   store_after (fetchAndStoreSVGs chain t st),
   events (fetchAndStoreSVGs chain t st)).
Proof.
  pose proof (fetch_never_throws chain t st) as Hc.
  unfold fetch_svgs, try_catch, bind, ret, completion, store_after, events
    in *.
  destruct (fetchAndStoreSVGs chain t st) as [[[[]|e] st1] ev1];
    [|discriminate Hc].
  cbn [fst snd]. rewrite app_nil_r. reflexivity.
Qed.

End Handlers.

(** * Test vectors *)

Section Vectors.

Import Reference.

(** The example of the specification, section 8: after one tick the store
    holds the record of token 101 with the decoded text, and a second tick
    leaves one record under that key. *)
Example spec_example_first_pass :
  coll_svgs (store_after (fetchAndStoreSVGs example_chain (calm 7) empty_store))
  = [[("_id", VObjectId 0); ("tokenId", VString "101");
      ("svg", VString "hello"); ("createdAt", VDate 7)];
     [("_id", VObjectId 1); ("tokenId", VString "102");
      ("svg", VString "<svg/>"); ("createdAt", VDate 7)]].
Proof. reflexivity. Qed.

Example spec_example_second_pass :
  count_key "101"
    (coll_svgs
       (store_after
          (fetchAndStoreSVGs example_chain (calm 9)
             (store_after
                (fetchAndStoreSVGs example_chain (calm 7) empty_store)))))
  = 1%nat.
Proof. reflexivity. Qed.

(** C1 fails as stated: token 0 of [comma_free_chain] throws a
    [TypeError] on decoding, index 1 is below [totalSupply], and the tick
    never calls [tokenByIndex(1)]. *)
Lemma error_skips_later_tokens :
  error_at comma_free_chain (calm 0) empty_store 0 TypeError /\
  0 < 1 /\ 1 < chain_totalSupply comma_free_chain /\
  attempted (events (fetchAndStoreSVGs comma_free_chain (calm 0) empty_store))
  = [0] /\
  ~ In 1 (attempted
            (events (fetchAndStoreSVGs comma_free_chain (calm 0) empty_store))).
Proof.
  split; [unfold error_at; repeat split|].
  split; [reflexivity|]. split; [reflexivity|]. split; [reflexivity|].
  vm_compute. intros [H|[]]. discriminate H.
Qed.

Lemma token_error_ends_tick_witness :
  completion (fetchAndStoreSVGs comma_free_chain (calm 0) empty_store)
  = Normal tt /\
  store_after (fetchAndStoreSVGs comma_free_chain (calm 0) empty_store)
  = empty_store /\
  In (ConsoleError "Error fetching and storing SVGs:" (Some TypeError))
     (events (fetchAndStoreSVGs comma_free_chain (calm 0) empty_store)) /\
  forall j,
    In j (attempted
            (events (fetchAndStoreSVGs comma_free_chain (calm 0) empty_store)))
    <-> j <= 0.
Proof.
  apply (token_error_ends_tick comma_free_chain (calm 0) empty_store 0
                               TypeError).
  unfold error_at. repeat split.
Defined.

Lemma second_pass_inserts_nothing_witness :
  inserts
    (events
       (fetchAndStoreSVGs example_chain (calm 9)
          (store_after (fetchAndStoreSVGs example_chain (calm 7) empty_store))))
  = [] /\
  store_after
    (fetchAndStoreSVGs example_chain (calm 9)
       (store_after (fetchAndStoreSVGs example_chain (calm 7) empty_store)))
  = store_after (fetchAndStoreSVGs example_chain (calm 7) empty_store).
Proof.
  apply (second_pass_inserts_nothing example_chain (calm 7) (calm 9)
                                     empty_store).
  unfold completes. split; reflexivity.
Defined.

Lemma completed_pass_covers_supply_witness :
  exists d,
    In d (coll_svgs
            (store_after
               (fetchAndStoreSVGs example_chain (calm 7) empty_store))) /\
    field "tokenId" d = Some (VString "102").
Proof.
  apply (completed_pass_covers_supply example_chain (calm 7) empty_store 1).
  - unfold completes. split; reflexivity.
  - reflexivity.
Defined.

Lemma stored_svg_is_decoded_payload_witness :
  exists d,
    In d (coll_svgs
            (store_after
               (fetchAndStoreSVGs example_chain (calm 7) empty_store))) /\
    field "tokenId" d = Some (VString "101") /\
    field "svg" d = Some (VString "hello").
Proof.
  destruct (stored_svg_is_decoded_payload example_chain (calm 7) empty_store
              101 "aGVsbG8=" eq_refl eq_refl)
    as (new & Hnew & _ & Hstored).
  destruct (Hstored 0 eq_refl eq_refl eq_refl (conj eq_refl eq_refl))
    as (d & Hin & Hkey & Hsvg).
  exists d. rewrite Hnew.
  split; [apply in_or_app; right; exact Hin|].
  split; [exact Hkey | exact Hsvg].
Defined.

Lemma offline_tick_is_silent_witness :
  completion (fetchAndStoreSVGs example_chain offline empty_store)
  = Normal tt /\
  store_after (fetchAndStoreSVGs example_chain offline empty_store)
  = empty_store /\
  store_calls (events (fetchAndStoreSVGs example_chain offline empty_store))
  = [] /\
  events (fetchAndStoreSVGs example_chain offline empty_store) =
  [RpcGetNetwork;
   ConsoleError "Failed to connect to the network:" (Some NetworkError);
   ConsoleError "Could not connect to the network. Skipping SVG fetch." None].
Proof.
  apply (offline_tick_is_silent example_chain offline empty_store
                                NetworkError).
  reflexivity.
Defined.

Lemma text_upsert_last_write_wins_witness :
  count_key "5"
    (coll_catTexts
       (store_after (deliver Subscribed [mkTextSet None 5 "a";
                                         mkTextSet None 5 "b"] empty_store)))
  = 1%nat /\
  forall d,
    In d (coll_catTexts
            (store_after (deliver Subscribed [mkTextSet None 5 "a";
                                              mkTextSet None 5 "b"]
                                  empty_store))) ->
    matches "5" d = true ->
    field "text" d = Some (VString "b").
Proof.
  apply (text_upsert_last_write_wins 5 "a" "b" empty_store).
  vm_compute. lia.
Defined.

Lemma missing_cat_text_is_null_witness :
  get_cat_text None "5" empty_store =
  (Normal (mkResponse 200 (JsonValue VNull)), empty_store,
   [DbFindOne catTexts "5"]).
Proof.
  apply (missing_cat_text_is_null "5" empty_store). reflexivity.
Defined.

(** C9, at a failing input: the read of [totalSupply] throws, so the
    pass fails as a whole, and the route answers 200 with the message
    where the claim, and the [catch] of the route itself, call for a
    500. *)
Lemma failed_pass_answers_200 :
  completion (reconcile_pass example_chain supply_unreadable empty_store)
  = Thrown CallException /\
  completion (fetch_svgs example_chain supply_unreadable empty_store)
  = Normal (mkResponse 200 (JsonMessage "SVG fetch process initiated")) /\
  status (mkResponse 200 (JsonMessage "SVG fetch process initiated")) <> 500.
Proof. repeat split. discriminate. Qed.

End Vectors.

(** * Further properties of the reconciler *)

Lemma inserts_app (a b : list Event) :
  inserts (a ++ b) = inserts a ++ inserts b.
Proof.
  induction a as [|ev a IH]; [reflexivity|].
  destruct ev; simpl; rewrite IH; reflexivity.
Qed.

Lemma attempted_app (a b : list Event) :
  attempted (a ++ b) = attempted a ++ attempted b.
Proof.
  induction a as [|ev a IH]; [reflexivity|].
  destruct ev; simpl; rewrite IH; reflexivity.
Qed.

Lemma matches_stored_record {rt : NodeRuntime} key oid id svg date :
  matches key (("_id", VObjectId oid) :: token_record id svg date)
  = String.eqb (toString id) key.
Proof. reflexivity. Qed.

Section Dedup.

Context {rt : NodeRuntime}.
Variable chain : Chain.

Abbreviation tid i := (chain_tokenByIndex chain i).
Abbreviation tkey i := (toString (chain_tokenByIndex chain i)).
Abbreviation turi i := (chain_tokenURI chain (chain_tokenByIndex chain i)).
Abbreviation step t i st := (reconcile_token chain t i st).
Abbreviation steps t k i st := (for_loop (reconcile_token chain t) k i st).
Abbreviation tick t st := (fetchAndStoreSVGs chain t st).
Abbreviation decoded payload :=
  (Buffer_toString_utf8 (Buffer_from_base64 payload)).

(** What one iteration does to the store: nothing, or it appends the
    record of a token whose key was absent and whose URI has a second
    segment. *)
Lemma token_effect t i st :
  store_after (step t i st) = st \/
  exists payload,
    existsb (matches (tkey i)) (coll_svgs st) = false /\
    nth_error (split "," (turi i)) 1 = Some payload /\
    store_after (step t i st) =
    mkStore (coll_svgs st
               ++ [("_id", VObjectId (next_oid st))
                     :: token_record (tid i) (decoded payload) (clock t i)])
            (coll_catTexts st) (N.succ (next_oid st)).
Proof.
  destruct (token_frame chain t i st) as [H|(d & Hin & Hs)]; [now left|].
  right.
  destruct (token_insert_event chain t i st svgs d Hin)
    as (_ & payload & Hseg & ->).
  exists payload. split; [|split; [exact Hseg | exact Hs]].
  destruct (existsb (matches (tkey i)) (coll_svgs st)) eqn:E; [|reflexivity].
  destruct (token_noop chain t i st E) as [_ Hno].
  destruct (Hno svgs _ Hin).
Qed.

(** A property of the store that every iteration keeps is kept by the
    loop and by the tick. *)
Lemma loop_invariant (P : Store -> Prop) t :
  (forall i st, P st -> P (store_after (step t i st))) ->
  forall k i st, P st -> P (store_after (steps t k i st)).
Proof.
  intros Hstep. induction k as [|k IH]; intros i st HP; [exact HP|].
  specialize (Hstep i st HP). rewrite for_loop_step.
  unfold store_after in *.
  destruct (reconcile_token chain t i st) as [[[[]|e] st1] ev1];
    cbn [fst snd] in *; [|exact Hstep].
  specialize (IH (N.succ i) st1 Hstep).
  destruct (for_loop (reconcile_token chain t) k (N.succ i) st1)
    as [[r st2] ev2]. exact IH.
Qed.

Lemma tick_invariant (P : Store -> Prop) t :
  (forall i st, P st -> P (store_after (step t i st))) ->
  forall st, P st -> P (store_after (tick t st)).
Proof.
  intros Hstep st HP. destruct (fetch_store chain t st) as [-> | ->];
    [exact HP | now apply loop_invariant].
Qed.

Lemma token_keeps_unique t i st :
  unique_keys (coll_svgs st) ->
  unique_keys (coll_svgs (store_after (step t i st))).
Proof.
  intros Hu. destruct (token_effect t i st) as [-> | (p & Habs & _ & ->)];
    [exact Hu|].
  intros key. simpl. rewrite count_key_app. unfold count_key at 2. simpl.
  rewrite matches_stored_record.
  destruct (String.eqb_spec (tkey i) key) as [<-|Hne]; simpl.
  - apply count_key_zero in Habs. rewrite Habs. lia.
  - specialize (Hu key). lia.
Qed.

Lemma token_inserts_absent t i st c d key :
  In (DbInsertOne c d) (events (step t i st)) ->
  field "tokenId" d = Some (VString key) ->
  existsb (matches key) (coll_svgs st) = false.
Proof.
  intros Hin Hkey.
  destruct (token_insert_event chain t i st c d Hin) as (_ & p & _ & ->).
  simpl in Hkey. inversion Hkey; subst key.
  destruct (existsb (matches (tkey i)) (coll_svgs st)) eqn:E; [|reflexivity].
  destruct (token_noop chain t i st E) as [_ Hno]. destruct (Hno c _ Hin).
Qed.

Lemma loop_inserts_absent t k : forall i st c d key,
  In (DbInsertOne c d) (events (steps t k i st)) ->
  field "tokenId" d = Some (VString key) ->
  existsb (matches key) (coll_svgs st) = false.
Proof.
  induction k as [|k IH]; intros i st c d key; [simpl; tauto|].
  pose proof (token_inserts_absent t i st c d key) as Ht.
  pose proof (token_frame chain t i st) as Hf.
  specialize (IH (N.succ i)). rewrite for_loop_step.
  unfold store_after, events in *.
  destruct (reconcile_token chain t i st) as [[[[]|e] st1] ev1];
    cbn [fst snd] in *; [|exact Ht].
  specialize (IH st1 c d key).
  destruct (for_loop (reconcile_token chain t) k (N.succ i) st1)
    as [[r st2] ev2]. cbn [fst snd] in *.
  intros Hin Hkey. apply in_app_or in Hin. destruct Hin as [Hin|Hin];
    [exact (Ht Hin Hkey)|].
  specialize (IH Hin Hkey).
  destruct Hf as [->|(d' & _ & ->)]; [exact IH|].
  simpl in IH. rewrite existsb_app in IH.
  apply orb_false_iff in IH. exact (proj1 IH).
Qed.

(** A tick over a store that covers the supply changes nothing. *)
Lemma tick_noop t st :
  covered chain st ->
  store_after (tick t st) = st /\ inserts (events (tick t st)) = [].
Proof.
  intros Hcov.
  destruct (loop_noop chain t (N.to_nat (chain_totalSupply chain)) 0 st)
    as [Hs Hev].
  { intros j Hj. apply Hcov. lia. }
  split.
  - destruct (fetch_store chain t st) as [->| ->]; [reflexivity | exact Hs].
  - apply inserts_nil. intros c d Hin. apply fetch_insert_event in Hin.
    exact (Hev c d (proj1 Hin)).
Qed.

Lemma completes_covered t st :
  completes chain t st -> covered chain (store_after (tick t st)).
Proof.
  intros Hc j Hj. destruct (completes_loop chain t st Hc) as [Fsup Hloop].
  destruct Hc as [Fnet _].
  destruct (fetch_cases chain t st)
    as [(e' & F & _)|[(e' & _ & F & _)|(_ & _ & ->)]]; try congruence.
  unfold store_after at 1. cbn [fst snd].
  apply (loop_complete chain t _ 0 st Hloop j). lia.
Qed.

(** One firing of the scheduler. *)
Lemma periodic_step t rest st :
  startPeriodicFetch chain (t :: rest) st =
  (completion (startPeriodicFetch chain rest (store_after (tick t st))),
   store_after (startPeriodicFetch chain rest (store_after (tick t st))),
   ConsoleLog ["Initiating periodic SVG fetch..."]
     :: events (tick t st)
     ++ events (startPeriodicFetch chain rest (store_after (tick t st)))).
Proof.
  pose proof (fetch_never_throws chain t st) as Hc.
  change (startPeriodicFetch chain (t :: rest))
    with (console_log ["Initiating periodic SVG fetch..."] ;;
          fetchAndStoreSVGs chain t ;; startPeriodicFetch chain rest).
  unfold bind, console_log, emit, completion, store_after, events in *.
  destruct (fetchAndStoreSVGs chain t st) as [[[[]|e] st1] ev1];
    [|discriminate Hc].
  cbn [fst snd].
  destruct (startPeriodicFetch chain rest st1) as [[r st2] ev2]. reflexivity.
Qed.

Lemma periodic_never_throws ts : forall st,
  completion (startPeriodicFetch chain ts st) = Normal tt.
Proof.
  induction ts as [|t ts IH]; intros st; [reflexivity|].
  rewrite periodic_step. apply IH.
Qed.

Lemma periodic_invariant (P : Store -> Prop) :
  (forall t i st, P st -> P (store_after (step t i st))) ->
  forall ts st, P st -> P (store_after (startPeriodicFetch chain ts st)).
Proof.
  intros Hstep. induction ts as [|t ts IH]; intros st HP; [exact HP|].
  rewrite periodic_step. unfold store_after at 1. cbn [fst snd].
  apply IH. apply tick_invariant; [apply Hstep | exact HP].
Qed.

End Dedup.

Section Blocking.

Context {rt : NodeRuntime}.
Variable chain : Chain.

Abbreviation bkey i := (toString (chain_tokenByIndex chain i)).
Abbreviation buri i := (chain_tokenURI chain (chain_tokenByIndex chain i)).
Abbreviation absent i st :=
  (existsb (matches (bkey i)) (coll_svgs st) = false).

Lemma undecodable_step t i st :
  nth_error (split "," (buri i)) 1 = None ->
  absent i st ->
  exists e, completion (reconcile_token chain t i st) = Thrown e.
Proof.
  intros Hseg Habs.
  destruct (completion (reconcile_token chain t i st)) as [[]|e] eqn:Hc;
    [|now exists e].
  pose proof (token_present chain t i st Hc) as Hp.
  destruct (token_effect chain t i st) as [Hs|(p & _ & Hp' & _)];
    [rewrite Hs in Hp | ]; congruence.
Qed.

Lemma undecodable_stays_absent t i i0 st :
  nth_error (split "," (buri i)) 1 = None ->
  absent i st ->
  absent i (store_after (reconcile_token chain t i0 st)).
Proof.
  intros Hseg Habs.
  destruct (token_effect chain t i0 st) as [-> | (p & _ & Hp & ->)];
    [exact Habs|].
  simpl. rewrite existsb_app, Habs. simpl.
  rewrite matches_stored_record, orb_false_r.
  destruct (String.eqb_spec (bkey i0) (bkey i)) as [Heq|]; [|reflexivity].
  apply toString_inj in Heq. rewrite Heq in Hp. congruence.
Qed.

Lemma undecodable_stops_loop t i :
  nth_error (split "," (buri i)) 1 = None ->
  forall k i0 st,
    i0 <= i < i0 + N.of_nat k ->
    absent i st ->
    (exists e,
        completion (for_loop (reconcile_token chain t) k i0 st) = Thrown e) /\
    forall j,
      In (RpcTokenByIndex j)
         (events (for_loop (reconcile_token chain t) k i0 st)) ->
      j <= i.
Proof.
  intros Hseg. induction k as [|k IH]; intros i0 st Hi Habs; [lia|].
  pose proof (undecodable_step t i st Hseg) as Hthrow.
  pose proof (undecodable_stays_absent t i i0 st Hseg Habs) as Hkeep.
  pose proof (token_rpc_event chain t i0 st) as Hrpc.
  specialize (IH (N.succ i0)). rewrite for_loop_step.
  unfold completion, store_after, events in *.
  destruct (reconcile_token chain t i0 st) as [[[[]|e] st1] ev1] eqn:Hstep;
    cbn [fst snd] in *.
  - assert (Hlt : i0 < i).
    { destruct (N.eq_dec i0 i) as [->|]; [|lia].
      rewrite Hstep in Hthrow. destruct (Hthrow Habs) as [e He].
      discriminate He. }
    destruct (IH st1) as [[e He] Hev]; [lia | exact Hkeep |].
    destruct (for_loop (reconcile_token chain t) k (N.succ i0) st1)
      as [[r st2] ev2]. cbn [fst snd] in *. split; [now exists e|].
    intros j Hin. apply in_app_or in Hin. destruct Hin as [Hin|Hin].
    + rewrite (Hrpc j Hin). lia.
    + exact (Hev j Hin).
  - split; [now exists e|]. intros j Hin. rewrite (Hrpc j Hin). lia.
Qed.

Lemma blocked_tick t st i :
  i < chain_totalSupply chain ->
  nth_error (split "," (buri i)) 1 = None ->
  absent i st ->
  (forall j, In j (attempted (events (fetchAndStoreSVGs chain t st))) ->
             j <= i) /\
  absent i (store_after (fetchAndStoreSVGs chain t st)).
Proof.
  intros Hi Hseg Habs. split.
  - intros j Hin. apply attempted_In in Hin.
    destruct (undecodable_stops_loop t i Hseg
                (N.to_nat (chain_totalSupply chain)) 0 st) as [_ Hev];
      [lia | exact Habs |].
    destruct (fetch_cases chain t st)
      as [(e & _ & Hrun)|[(e & _ & _ & Hrun)|(_ & _ & Hrun)]];
      rewrite Hrun in Hin; unfold events in Hin; cbn [fst snd] in Hin.
    + simpl in Hin.
      repeat destruct Hin as [Hin|Hin]; try discriminate Hin; contradiction.
    + simpl in Hin.
      repeat destruct Hin as [Hin|Hin]; try discriminate Hin; contradiction.
    + apply in_app_or in Hin. destruct Hin as [Hin|Hin].
      { simpl in Hin.
        repeat destruct Hin as [Hin|Hin]; try discriminate Hin;
          contradiction. }
      apply in_app_or in Hin. destruct Hin as [Hin|Hin];
        [exact (Hev j Hin)|].
      destruct Hin as [Hin|[]].
      destruct (completion _) in Hin; discriminate Hin.
  - apply (tick_invariant chain (fun s => absent i s) t); [|exact Habs].
    intros i0 s. apply undecodable_stays_absent. exact Hseg.
Qed.

(** The record a tick adds under the key of [id] holds the decoding of
    the second segment of the URI. *)
Lemma stored_svg_of_segment t st id seg :
  nth_error (split "," (chain_tokenURI chain id)) 1 = Some seg ->
  exists new,
    coll_svgs (store_after (fetchAndStoreSVGs chain t st))
    = coll_svgs st ++ new /\
    forall d,
      In d new ->
      field "tokenId" d = Some (VString (toString id)) ->
      field "svg" d
      = Some (VString (Buffer_toString_utf8 (Buffer_from_base64 seg))).
Proof.
  intros Hseg.
  destruct (fetch_store chain t st) as [Hs|Hs]; rewrite Hs.
  { exists []. rewrite app_nil_r. split; [reflexivity | intros d []]. }
  destruct (loop_frame chain t (N.to_nat (chain_totalSupply chain)) 0 st)
    as (new & Hnew & _ & Hall).
  exists new. split; [exact Hnew|]. intros d Hin Hkey.
  rewrite Forall_forall in Hall.
  destruct (Hall d Hin) as (d0 & [oid ->] & Hev).
  apply loop_insert_event in Hev.
  destruct Hev as (_ & j & seg' & _ & Hseg' & ->).
  simpl in Hkey |- *. inversion Hkey as [Hid]. apply toString_inj in Hid.
  rewrite Hid in Hseg'. congruence.
Qed.

End Blocking.

Section Overlap.

Context {rt : NodeRuntime}.
Variable chain : Chain.

Lemma bind_three {A B C D} (c1 : Task A) (c2 : A -> Task B)
  (c3 : A -> B -> Task C) (k : A * B * C -> Task D) st :
  (a <- c1 ;; b <- c2 a ;; c <- c3 a b ;; k (a, b, c)) st
  = (found <- (a <- c1 ;; b <- c2 a ;; c <- c3 a b ;; ret (a, b, c)) ;;
     k found) st.
Proof.
  unfold bind, ret.
  destruct (c1 st) as [[[a|e] s1] e1]; [|reflexivity].
  destruct (c2 a s1) as [[[b|e] s2] e2]; [|reflexivity].
  destruct (c3 a b s2) as [[[c|e] s3] e3]; [|reflexivity].
  destruct (k (a, b, c) s3) as [[r s4] e4].
  rewrite app_nil_r, <- !app_assoc. reflexivity.
Qed.

(** An iteration that runs alone is its two halves, one after the other. *)
Lemma reconcile_token_halves t i st :
  reconcile_token chain t i st
  = (found <- token_lookup chain t i ;; token_store t i found) st.
Proof.
  exact (bind_three
           (call (RpcTokenByIndex i) (tokenByIndex_fault t i)
                 (ret (chain_tokenByIndex chain i)))
           (fun tokenId =>
              call (RpcTokenURI tokenId) (tokenURI_fault t i)
                   (ret (chain_tokenURI chain tokenId)))
           (fun tokenId _ =>
              findOne (findOne_fault t i) svgs (toString tokenId))
           (token_store t i) st).
Qed.

End Overlap.

(** Two ticks that overlap: both look token 7 up before either inserts
    it, and "svgs" ends with two documents under the one key.  The
    uniqueness of X3 needs ticks that do not overlap. *)
Example overlapping_ticks_duplicate :
  count_key "7"
    (coll_svgs
       (store_after
          ((a <- token_lookup two_comma_chain (calm 1) 0 ;;
            b <- token_lookup two_comma_chain (calm 2) 0 ;;
            token_store (rt := Reference.runtime) (calm 1) 0 a ;;
            token_store (rt := Reference.runtime) (calm 2) 0 b)
             Reference.empty_store)))
  = 2%nat.
Proof. reflexivity. Qed.

Section ReconcilerExtras.

Context {rt : NodeRuntime}.
Variable chain : Chain.

(** X1: any number of firings of the scheduler, whatever fails during
    them, returns normally, only appends to "svgs" and leaves "catTexts"
    as it was. *)
Theorem periodic_fetch_is_safe ts st :
  completion (startPeriodicFetch chain ts st) = Normal tt /\
  exists new,
    coll_svgs (store_after (startPeriodicFetch chain ts st))
    = coll_svgs st ++ new /\
    coll_catTexts (store_after (startPeriodicFetch chain ts st))
    = coll_catTexts st.
Proof.
  split; [apply periodic_never_throws|].
  apply (periodic_invariant chain
           (fun s => exists new, coll_svgs s = coll_svgs st ++ new /\
                                 coll_catTexts s = coll_catTexts st)).
  - intros t i s (new & Hs & Hc).
    destruct (token_frame chain t i s) as [-> | (d & _ & ->)].
    + exists new. auto.
    + simpl. eexists. rewrite Hs, <- app_assoc. split; [reflexivity|exact Hc].
  - exists []. rewrite app_nil_r. auto.
Qed.

(** X2: when the connection is there and the read of [totalSupply]
    fails, the tick logs the error and returns: no token is read, no call
    reaches the store, the store is as before. *)
Theorem unreadable_supply_ends_tick t st e :
  getNetwork_fault t = None ->
  totalSupply_fault t = Some e ->
  fetchAndStoreSVGs chain t st =
  (Normal tt, st,
   [RpcGetNetwork; ConsoleLog ["Connected to the network"]; RpcTotalSupply;
    ConsoleError "Error fetching and storing SVGs:" (Some e)]).
Proof.
  intros Fnet Fsup.
  destruct (fetch_cases chain t st)
    as [(e' & F & _)|[(e' & _ & F & ->)|(_ & F & _)]]; try congruence.
  assert (e' = e) by congruence. subst e'. reflexivity.
Qed.

(** X3: ticks that run alone, one after the other and with no other
    task between the lookup and the insert of an iteration, keep the keys
    of "svgs" unique: from a collection with at most one document per
    [tokenId], one such tick, and any number of them in sequence, leaves
    such a collection, whatever fails and even if the chain lists a token
    twice.  ([overlapping_ticks_duplicate] shows what two ticks that
    overlap do.) *)
Theorem tick_keeps_keys_unique t ts st :
  unique_keys (coll_svgs st) ->
  unique_keys (coll_svgs (store_after (fetchAndStoreSVGs chain t st))) /\
  unique_keys (coll_svgs (store_after (startPeriodicFetch chain ts st))).
Proof.
  intros Hu. split.
  - revert Hu.
    apply (tick_invariant chain (fun s => unique_keys (coll_svgs s))).
    intros i s. apply token_keeps_unique.
  - revert Hu.
    apply (periodic_invariant chain (fun s => unique_keys (coll_svgs s))).
    intros t' i s. apply token_keeps_unique.
Qed.

(** X4: every document a tick hands to [insertOne] has a [tokenId] that no
    document of "svgs" had when the tick started. *)
Theorem tick_inserts_only_absent_keys t st :
  Forall (fun cd => exists key,
              field "tokenId" (snd cd) = Some (VString key) /\
              existsb (matches key) (coll_svgs st) = false)
         (inserts (events (fetchAndStoreSVGs chain t st))).
Proof.
  apply Forall_forall. intros [c d] Hin. apply inserts_In in Hin.
  apply fetch_insert_event in Hin. destruct Hin as [Hin _].
  destruct (loop_insert_event chain t _ 0 st c d Hin)
    as (_ & j & p & _ & _ & Hd).
  exists (toString (chain_tokenByIndex chain j)). simpl.
  split; [rewrite Hd; reflexivity|].
  apply (loop_inserts_absent chain t _ 0 st c d _ Hin).
  rewrite Hd. reflexivity.
Qed.

(** X5: a token below [totalSupply] whose URI has no comma and which is
    not yet stored stops every tick: the tick does not complete, reads no
    index above that token's, and leaves the token unstored. *)
Theorem undecodable_token_blocks_tick t st i :
  i < chain_totalSupply chain ->
  occurs "," (chain_tokenURI chain (chain_tokenByIndex chain i)) = false ->
  existsb (matches (toString (chain_tokenByIndex chain i))) (coll_svgs st)
  = false ->
  ~ completes chain t st /\
  Forall (fun j => j <= i)
         (attempted (events (fetchAndStoreSVGs chain t st))) /\
  existsb (matches (toString (chain_tokenByIndex chain i)))
          (coll_svgs (store_after (fetchAndStoreSVGs chain t st))) = false.
Proof.
  intros Hi Hseg Habs.
  apply split_without_sep in Hseg.
  assert (Hnone : nth_error
                    (split "," (chain_tokenURI chain
                                  (chain_tokenByIndex chain i))) 1 = None)
    by (rewrite Hseg; reflexivity).
  clear Hseg. rename Hnone into Hseg.
  split; [|destruct (blocked_tick chain t st i Hi Hseg Habs) as [Hatt Hkeep];
            split; [apply Forall_forall; exact Hatt | exact Hkeep]].
  intros Hc. destruct (completes_loop chain t st Hc) as [_ Hloop].
  destruct (undecodable_stops_loop chain t i Hseg
              (N.to_nat (chain_totalSupply chain)) 0 st) as [[e He] _];
    [lia | exact Habs | congruence].
Qed.

(** X6: and so does it stop every later firing of the scheduler: however
    many ticks run, none reads an index above that token's. *)
Theorem undecodable_token_blocks_forever ts st i :
  i < chain_totalSupply chain ->
  occurs "," (chain_tokenURI chain (chain_tokenByIndex chain i)) = false ->
  existsb (matches (toString (chain_tokenByIndex chain i))) (coll_svgs st)
  = false ->
  Forall (fun j => j <= i)
         (attempted (events (startPeriodicFetch chain ts st))).
Proof.
  intros Hi Hseg.
  apply split_without_sep in Hseg.
  assert (Hnone : nth_error
                    (split "," (chain_tokenURI chain
                                  (chain_tokenByIndex chain i))) 1 = None)
    by (rewrite Hseg; reflexivity).
  clear Hseg. rename Hnone into Hseg.
  revert st. induction ts as [|t ts IH]; intros st Habs.
  - constructor.
  - destruct (blocked_tick chain t st i Hi Hseg Habs) as [Hatt Hkeep].
    rewrite periodic_step. unfold events at 1. cbn [fst snd].
    change (attempted (ConsoleLog ?a :: ?l)) with (attempted l).
    rewrite attempted_app. apply Forall_app. split.
    + apply Forall_forall. exact Hatt.
    + exact (IH _ Hkeep).
Qed.

(** X7: when the URI has a second comma, the [svg] a tick stores is the
    decoding of the text between the first comma and the second; what
    follows the second comma is dropped.  Every document the tick adds
    under the token's key has that [svg]; and when the token is at an
    index below [totalSupply], was not stored before and the tick
    completes, the tick does add such a document. *)
Theorem svg_is_second_segment t st id prefix payload rest :
  chain_tokenURI chain id
  = (prefix ++ String "," (payload ++ String "," rest))%string ->
  occurs "," prefix = false ->
  occurs "," payload = false ->
  exists new,
    coll_svgs (store_after (fetchAndStoreSVGs chain t st))
    = coll_svgs st ++ new /\
    (forall d,
        In d new ->
        field "tokenId" d = Some (VString (toString id)) ->
        field "svg" d
        = Some (VString (Buffer_toString_utf8 (Buffer_from_base64 payload))))
    /\
    (forall i,
        i < chain_totalSupply chain ->
        chain_tokenByIndex chain i = id ->
        existsb (matches (toString id)) (coll_svgs st) = false ->
        completes chain t st ->
        exists d,
          In d new /\
          field "tokenId" d = Some (VString (toString id)) /\
          field "svg" d
          = Some (VString
                    (Buffer_toString_utf8 (Buffer_from_base64 payload)))).
Proof.
  intros Huri Hp Hb.
  destruct (stored_svg_of_segment chain t st id payload)
    as (new & Hnew & Hall).
  { rewrite Huri, (split_append _ _ _ Hp), (split_append _ _ _ Hb).
    reflexivity. }
  exists new. split; [exact Hnew|]. split; [exact Hall|].
  intros i Hi Hid Habs Hc. subst id.
  destruct (completed_tick_has_key chain t st i new Hc Hi Hnew Habs)
    as (d & Hin & Hkey).
  exists d. split; [exact Hin|]. split; [exact Hkey|].
  exact (Hall d Hin Hkey).
Qed.

(** X8: once a tick has completed, further firings of the scheduler over
    the same chain state, whatever fails during them, insert nothing and
    leave the store as that tick left it. *)
Theorem periodic_fetch_settles t st ts :
  completes chain t st ->
  inserts
    (events (startPeriodicFetch chain ts
               (store_after (fetchAndStoreSVGs chain t st))))
  = [] /\
  store_after (startPeriodicFetch chain ts
                 (store_after (fetchAndStoreSVGs chain t st)))
  = store_after (fetchAndStoreSVGs chain t st).
Proof.
  intros Hc. apply completes_covered in Hc.
  induction ts as [|t' ts IH]; [split; reflexivity|].
  destruct (tick_noop chain t' _ Hc) as [Hs Hins].
  rewrite periodic_step. unfold events at 1, store_after at 1.
  cbn [fst snd]. rewrite Hs.
  change (inserts (ConsoleLog ?a :: ?l)) with (inserts l).
  rewrite inserts_app, Hins. exact IH.
Qed.

End ReconcilerExtras.

(** * Further properties of the listener *)

Lemma find_app {A} (p : A -> bool) (l l' : list A) :
  find p (l ++ l') = match find p l with
                     | Some x => Some x
                     | None => find p l'
                     end.
Proof.
  induction l as [|x l IH]; simpl; [reflexivity|].
  destruct (p x); [reflexivity | exact IH].
Qed.

Lemma find_update_first_same (p : Doc -> bool) (f : Doc -> Doc) docs :
  (forall d, p (f d) = p d) ->
  find p (update_first p f docs) = option_map f (find p docs).
Proof.
  intros Hf. induction docs as [|d docs IH]; [reflexivity|].
  simpl. destruct (p d) eqn:Hp; simpl.
  - rewrite Hf, Hp. reflexivity.
  - rewrite Hp. exact IH.
Qed.

Lemma find_update_first_other (p q : Doc -> bool) (f : Doc -> Doc) docs :
  (forall d, q (f d) = q d) ->
  (forall d, p d = true -> q d = false) ->
  find q (update_first p f docs) = find q docs.
Proof.
  intros Hf Hpq. induction docs as [|d docs IH]; [reflexivity|].
  simpl. destruct (p d) eqn:Hp; simpl.
  - rewrite Hf, (Hpq d Hp). reflexivity.
  - destruct (q d); [reflexivity | exact IH].
Qed.

Lemma others_update_first key (f : Doc -> Doc) docs :
  (forall d, matches key (f d) = matches key d) ->
  others key (update_first (matches key) f docs) = others key docs.
Proof.
  intros Hf. unfold others. induction docs as [|d docs IH]; [reflexivity|].
  simpl. destruct (matches key d) eqn:Hm; simpl.
  - rewrite Hf, Hm. reflexivity.
  - rewrite Hm. simpl. rewrite IH. reflexivity.
Qed.

Lemma matches_excludes key key' d :
  key <> key' -> matches key d = true -> matches key' d = false.
Proof.
  unfold matches. intros Hne.
  destruct (field "tokenId" d) as [[]|]; try discriminate.
  intros H. apply String.eqb_eq in H. subst s.
  now apply String.eqb_neq.
Qed.

Lemma on_TextSet_normal e st :
  completion (on_TextSet e st) = Normal tt /\
  coll_svgs (store_after (on_TextSet e st)) = coll_svgs st.
Proof.
  destruct e as [[err|] id text].
  - rewrite on_TextSet_rejected. split; reflexivity.
  - unfold on_TextSet, updateOne_upsert, try_catch, bind, call, console_log,
      emit, completion, store_after. simpl.
    destruct (existsb (matches (toString id)) (coll_catTexts st));
      split; reflexivity.
Qed.

Lemma deliver_step e rest st :
  deliver Subscribed (e :: rest) st =
  (completion (deliver Subscribed rest (store_after (on_TextSet e st))),
   store_after (deliver Subscribed rest (store_after (on_TextSet e st))),
   events (on_TextSet e st)
     ++ events (deliver Subscribed rest (store_after (on_TextSet e st)))).
Proof.
  destruct (on_TextSet_normal e st) as [Hc _].
  change (deliver Subscribed (e :: rest))
    with (on_TextSet e ;; deliver Subscribed rest).
  unfold bind, completion, store_after, events in *.
  destruct (on_TextSet e st) as [[[[]|err] st1] ev1]; [|discriminate Hc].
  cbn [fst snd].
  destruct (deliver Subscribed rest st1) as [[r st2] ev2]. reflexivity.
Qed.

Lemma get_cat_text_found key st :
  get_cat_text None key st =
  (Normal (mkResponse 200 (JsonValue (stored_text key st))), st,
   [DbFindOne catTexts key]).
Proof.
  unfold get_cat_text, stored_text, try_catch, bind, findOne, call, ret.
  simpl. destruct (find (matches key) (coll_catTexts st)); reflexivity.
Qed.

Lemma stored_text_own id text st :
  stored_text (toString id)
              (store_after (on_TextSet (mkTextSet None id text) st))
  = VString text.
Proof.
  unfold stored_text. rewrite on_TextSet_stored.
  destruct (existsb (matches (toString id)) (coll_catTexts st)) eqn:Hex;
    rewrite existsb_find in Hex.
  - rewrite find_update_first_same by (intros d; apply matches_set_text).
    destruct (find (matches (toString id)) (coll_catTexts st));
      [|discriminate Hex].
    simpl. unfold prop. rewrite field_set_same. reflexivity.
  - rewrite find_app.
    destruct (find (matches (toString id)) (coll_catTexts st));
      [discriminate Hex|].
    simpl. rewrite matches_fresh, String.eqb_refl. reflexivity.
Qed.

Lemma stored_text_other id text st key :
  key <> toString id ->
  stored_text key (store_after (on_TextSet (mkTextSet None id text) st))
  = stored_text key st.
Proof.
  intros Hne. unfold stored_text. rewrite on_TextSet_stored.
  destruct (existsb (matches (toString id)) (coll_catTexts st)).
  - rewrite find_update_first_other; [reflexivity | |].
    + intros d. apply matches_set_text.
    + intros d. apply matches_excludes. congruence.
  - rewrite find_app.
    destruct (find (matches key) (coll_catTexts st)); [reflexivity|].
    simpl. rewrite matches_fresh.
    destruct (String.eqb_spec (toString id) key); [congruence | reflexivity].
Qed.

Lemma stored_text_after id es : forall st,
  stored_text (toString id) (store_after (deliver Subscribed es st)) =
  match last_accepted id es with
  | Some text => VString text
  | None => stored_text (toString id) st
  end.
Proof.
  induction es as [|e es IH]; intros st; [reflexivity|].
  rewrite deliver_step. unfold store_after at 1. cbn [fst snd].
  rewrite IH. simpl. destruct (last_accepted id es); [reflexivity|].
  destruct e as [[err|] ide text]; simpl.
  - rewrite on_TextSet_rejected. reflexivity.
  - destruct (N.eqb_spec ide id) as [->|Hne].
    + apply stored_text_own.
    + apply stored_text_other. intros H. apply toString_inj in H. congruence.
Qed.

(** X9: the listener never throws and never touches "svgs", whatever its
    state, the events and the failures of the store. *)
Theorem listener_never_rejects l es st :
  completion (deliver l es st) = Normal tt /\
  coll_svgs (store_after (deliver l es st)) = coll_svgs st.
Proof.
  destruct l; [destruct es; split; reflexivity|].
  revert st. induction es as [|e es IH]; intros st; [split; reflexivity|].
  rewrite deliver_step.
  destruct (IH (store_after (on_TextSet e st))) as [Hc Hs].
  split; [exact Hc|].
  change (coll_svgs
            (store_after
               (deliver Subscribed es (store_after (on_TextSet e st))))
          = coll_svgs st).
  rewrite Hs. apply on_TextSet_normal.
Qed.

(** X10: the listener keeps the keys of "catTexts" unique over any
    sequence of events, accepted or rejected by the store. *)
Theorem listener_keeps_keys_unique l es st :
  unique_keys (coll_catTexts st) ->
  unique_keys (coll_catTexts (store_after (deliver l es st))).
Proof.
  destruct l; [destruct es; auto|].
  revert st. induction es as [|e es IH]; intros st Hu; [exact Hu|].
  rewrite deliver_step. unfold store_after at 1. cbn [fst snd].
  apply IH. apply on_TextSet_unique. exact Hu.
Qed.

(** X11: after any sequence of events, the route for the text of a token
    answers 200 with the text of the last event for that token that the
    store accepted; without such an event it answers what it answered
    before. *)
Theorem cat_text_is_last_accepted id es st :
  completion
    (get_cat_text None (toString id)
                  (store_after (deliver Subscribed es st)))
  = Normal (mkResponse 200
              (JsonValue match last_accepted id es with
                         | Some text => VString text
                         | None => stored_text (toString id) st
                         end)).
Proof. rewrite get_cat_text_found, stored_text_after. reflexivity. Qed.

(** X12: an event for one token leaves the documents of every other key
    as they were, in the same order. *)
Theorem upsert_leaves_other_keys e st :
  others (toString (ev_tokenId e))
         (coll_catTexts (store_after (on_TextSet e st)))
  = others (toString (ev_tokenId e)) (coll_catTexts st).
Proof.
  destruct e as [[err|] id text]; simpl.
  - rewrite on_TextSet_rejected. reflexivity.
  - rewrite on_TextSet_stored.
    destruct (existsb (matches (toString id)) (coll_catTexts st)).
    + apply others_update_first. intros d. apply matches_set_text.
    + unfold others. rewrite filter_app. simpl.
      rewrite matches_fresh, String.eqb_refl. simpl. apply app_nil_r.
Qed.

(** X13: when the connection cannot be acquired at start-up, the listener
    stays disconnected and no event delivered afterwards reaches the
    store. *)
Theorem offline_listener_drops_events t e es st :
  getNetwork_fault t = Some e ->
  completion (listenForTextSetEvents t st) = Normal Disconnected /\
  store_after (listenForTextSetEvents t st) = st /\
  deliver Disconnected es st = (Normal tt, st, []).
Proof.
  intros F.
  unfold listenForTextSetEvents, getProvider, try_catch, bind, call.
  rewrite F. destruct es; repeat split.
Qed.

(** * Further properties of the routes and of the helpers *)

Section Routes.

Context {rt : NodeRuntime}.
Variable chain : Chain.

(** X14: the three routes that call the store directly always answer:
    with 200 when the call succeeds and with 500 when it fails; the two
    read routes never change the store, and a failed publish stores
    nothing. *)
Theorem store_routes_always_answer fault key svg date st :
  (exists r,
      completion (get_cat_text fault key st) = Normal r /\
      status r = match fault with Some _ => 500 | None => 200 end /\
      store_after (get_cat_text fault key st) = st) /\
  (exists r,
      completion (get_svgs fault st) = Normal r /\
      status r = match fault with Some _ => 500 | None => 200 end /\
      store_after (get_svgs fault st) = st) /\
  (exists r,
      completion (publish_svg fault svg date st) = Normal r /\
      status r = match fault with Some _ => 500 | None => 200 end /\
      match fault with
      | Some _ => store_after (publish_svg fault svg date st) = st
      | None =>
          coll_svgs (store_after (publish_svg fault svg date st))
          = coll_svgs st ++ [[("_id", VObjectId (next_oid st));
                              ("svg", VString svg);
                              ("createdAt", VDate date)]]
      end).
Proof.
  destruct fault as [e|]; repeat split.
  - eexists. repeat split.
  - eexists. repeat split.
  - eexists. repeat split.
  - rewrite get_cat_text_found. eexists. repeat split.
  - eexists. repeat split.
  - eexists. repeat split.
Qed.

(** X15: a published SVG comes back from [GET /get-svgs] as the last
    document, under the id that the publish route answered. *)
Theorem published_svg_is_listed svg date st :
  completion (publish_svg None svg date st)
  = Normal (mkResponse 200 (JsonPublished (VObjectId (next_oid st)))) /\
  completion (get_svgs None (store_after (publish_svg None svg date st)))
  = Normal (mkResponse 200
              (JsonDocs (coll_svgs st
                           ++ [[("_id", VObjectId (next_oid st));
                                ("svg", VString svg);
                                ("createdAt", VDate date)]]))).
Proof. split; reflexivity. Qed.

(** X16: a publish, accepted or not, changes no lookup by [tokenId] in
    "svgs": the first match and the number of matches of every key stay
    the same, so the existence check of the reconciler is blind to
    published documents. *)
Theorem publish_is_invisible_to_lookups fault svg date st key :
  find (matches key)
       (coll_svgs (store_after (publish_svg fault svg date st)))
  = find (matches key) (coll_svgs st) /\
  count_key key (coll_svgs (store_after (publish_svg fault svg date st)))
  = count_key key (coll_svgs st).
Proof.
  destruct fault as [e|]; [split; reflexivity|].
  unfold publish_svg, try_catch, bind, insertOne, call, ret, store_after.
  simpl. rewrite find_app, count_key_app. split.
  - destruct (find (matches key) (coll_svgs st)); reflexivity.
  - unfold count_key at 2. simpl. lia.
Qed.

(** X17: the key of one token finds the record of that token only:
    distinct token ids never share a record. *)
Theorem lookup_finds_own_record m n oid svg date :
  matches (toString m) (("_id", VObjectId oid) :: token_record n svg date)
  = true <-> m = n.
Proof.
  rewrite matches_stored_record. split.
  - intros H. apply String.eqb_eq in H. symmetry. now apply toString_inj.
  - intros ->. apply String.eqb_refl.
Qed.

(** X19: over a store that covers the supply, a tick whose reads of the
    chain and lookups succeed completes, whatever the URIs are: a URI is
    decoded only for a token that is not stored yet. *)
Theorem covered_tick_completes t st :
  covered chain st ->
  getNetwork_fault t = None ->
  totalSupply_fault t = None ->
  (forall j, j < chain_totalSupply chain ->
             tokenByIndex_fault t j = None /\
             tokenURI_fault t j = None /\
             findOne_fault t j = None) ->
  completes chain t st.
Proof.
  intros Hcov Fnet Fsup Hok. split; [exact Fnet|].
  rewrite (reconcile_pass_run chain t st Fsup).
  assert (Hloop : forall k i s,
             i + N.of_nat k <= chain_totalSupply chain ->
             covered chain s ->
             completion (for_loop (reconcile_token chain t) k i s)
             = Normal tt).
  { induction k as [|k IH]; intros i s Hk Hs; [reflexivity|].
    destruct (Hok i) as (F1 & F2 & F3); [lia|].
    pose proof (token_noop_normal chain t i s F1 F2 F3 (Hs i ltac:(lia)))
      as Hc.
    destruct (token_noop chain t i s (Hs i ltac:(lia))) as [Hst _].
    specialize (IH (N.succ i) s ltac:(lia) Hs).
    rewrite for_loop_step. unfold completion, store_after in *.
    destruct (reconcile_token chain t i s) as [[[[]|e] s1] ev1];
      cbn [fst snd] in *; [|discriminate Hc]. subst s1.
    destruct (for_loop (reconcile_token chain t) k (N.succ i) s)
      as [[r s2] ev2]. exact IH. }
  specialize (Hloop (N.to_nat (chain_totalSupply chain)) 0 st
                    ltac:(lia) Hcov).
  unfold completion in *.
  destruct (for_loop (reconcile_token chain t)
              (N.to_nat (chain_totalSupply chain)) 0 st)
    as [[[[]|e] s1] ev1]; [reflexivity | discriminate Hloop].
Qed.

End Routes.

Lemma split_nonempty sep s : split sep s <> [].
Proof.
  destruct s as [|c s]; simpl; [discriminate|].
  destruct (Ascii.eqb c sep); [discriminate|].
  destruct (split sep s); discriminate.
Qed.

(** X18: [split] loses nothing and leaves no separator behind: joining
    the segments with the separator gives the string back, and no segment
    contains the separator. *)
Theorem split_join_round_trip sep s :
  join sep (split sep s) = s /\
  Forall (fun seg => occurs sep seg = false) (split sep s).
Proof.
  induction s as [|c s [IHj IHf]]; simpl.
  - split; [reflexivity | repeat constructor].
  - pose proof (split_nonempty sep s) as Hne.
    destruct (Ascii.eqb_spec c sep) as [Heq|Hc].
    + destruct (split sep s) as [|seg segs]; [contradiction|].
      split; [|constructor; [reflexivity|exact IHf]].
      change (join sep (EmptyString :: seg :: segs))
        with (String sep (join sep (seg :: segs))).
      rewrite IHj, Heq. reflexivity.
    + destruct (split sep s) as [|seg segs]; [contradiction|].
      inversion IHf as [|? ? Hseg Hsegs]. split.
      * rewrite <- IHj. destruct segs; reflexivity.
      * constructor; [|exact Hsegs]. simpl. rewrite Hseg.
        destruct (Ascii.eqb_spec c sep); [contradiction | reflexivity].
Qed.

(** * Further test vectors *)

Section MoreVectors.

Import Reference.

Abbreviation after_first_pass :=
  (store_after (fetchAndStoreSVGs example_chain (calm 7) empty_store)).

Lemma unreadable_supply_ends_tick_witness :
  fetchAndStoreSVGs example_chain supply_unreadable empty_store =
  (Normal tt, empty_store,
   [RpcGetNetwork; ConsoleLog ["Connected to the network"]; RpcTotalSupply;
    ConsoleError "Error fetching and storing SVGs:" (Some CallException)]).
Proof.
  apply (unreadable_supply_ends_tick example_chain supply_unreadable
                                     empty_store CallException);
    reflexivity.
Defined.

Lemma tick_keeps_keys_unique_witness :
  unique_keys (coll_svgs after_first_pass) /\
  unique_keys
    (coll_svgs
       (store_after
          (startPeriodicFetch example_chain [calm 7; offline; calm 9]
                              empty_store))).
Proof.
  apply (tick_keeps_keys_unique example_chain (calm 7)
                                [calm 7; offline; calm 9] empty_store).
  intros key. vm_compute. lia.
Defined.

Lemma undecodable_token_blocks_tick_witness :
  ~ completes comma_free_chain (calm 0) empty_store /\
  Forall (fun j => j <= 0)
         (attempted
            (events (fetchAndStoreSVGs comma_free_chain (calm 0)
                                       empty_store))) /\
  existsb (matches "7")
          (coll_svgs
             (store_after
                (fetchAndStoreSVGs comma_free_chain (calm 0) empty_store)))
  = false.
Proof.
  apply (undecodable_token_blocks_tick comma_free_chain (calm 0) empty_store
                                       0); reflexivity.
Defined.

Lemma undecodable_token_blocks_forever_witness :
  Forall (fun j => j <= 0)
         (attempted
            (events (startPeriodicFetch comma_free_chain [calm 0; calm 1]
                                        empty_store))).
Proof.
  apply (undecodable_token_blocks_forever comma_free_chain [calm 0; calm 1]
                                          empty_store 0); reflexivity.
Defined.

Lemma svg_is_second_segment_witness :
  exists d,
    In d (coll_svgs
            (store_after
               (fetchAndStoreSVGs two_comma_chain (calm 0) empty_store))) /\
    field "tokenId" d = Some (VString "7") /\
    field "svg" d = Some (VString "hello").
Proof.
  destruct (svg_is_second_segment two_comma_chain (calm 0) empty_store 7
              "data:image/svg+xml;base64" "aGVsbG8=" "PHN2Zy8+"
              eq_refl eq_refl eq_refl)
    as (new & Hnew & _ & Hstored).
  destruct (Hstored 0 eq_refl eq_refl eq_refl (conj eq_refl eq_refl))
    as (d & Hin & Hkey & Hsvg).
  exists d. rewrite Hnew.
  split; [apply in_or_app; right; exact Hin|].
  split; [exact Hkey | exact Hsvg].
Defined.

Lemma periodic_fetch_settles_witness :
  inserts (events (startPeriodicFetch example_chain
                     [calm 8; offline; calm 9] after_first_pass)) = [] /\
  store_after (startPeriodicFetch example_chain [calm 8; offline; calm 9]
                                  after_first_pass)
  = after_first_pass.
Proof.
  apply (periodic_fetch_settles example_chain (calm 7) empty_store
                                [calm 8; offline; calm 9]).
  unfold completes. split; reflexivity.
Defined.

Lemma listener_keeps_keys_unique_witness :
  unique_keys
    (coll_catTexts
       (store_after
          (deliver Subscribed [mkTextSet None 5 "a";
                               mkTextSet (Some MongoError) 5 "b";
                               mkTextSet None 6 "c"] empty_store))).
Proof.
  apply (listener_keeps_keys_unique Subscribed
           [mkTextSet None 5 "a"; mkTextSet (Some MongoError) 5 "b";
            mkTextSet None 6 "c"] empty_store).
  intros key. vm_compute. lia.
Defined.

Lemma offline_listener_drops_events_witness :
  completion (listenForTextSetEvents offline empty_store)
  = Normal Disconnected /\
  store_after (listenForTextSetEvents offline empty_store) = empty_store /\
  deliver Disconnected [mkTextSet None 5 "a"] empty_store
  = (Normal tt, empty_store, []).
Proof.
  apply (offline_listener_drops_events offline NetworkError
           [mkTextSet None 5 "a"] empty_store).
  reflexivity.
Defined.

Lemma covered_tick_completes_witness :
  completes example_chain (calm 9) after_first_pass.
Proof.
  apply (covered_tick_completes example_chain (calm 9) after_first_pass).
  - intros j Hj. assert (Hcase : j = 0 \/ j = 1) by (simpl in Hj; lia).
    destruct Hcase; subst j; reflexivity.
  - reflexivity.
  - reflexivity.
  - intros j _. repeat split.
Defined.

(** The route answers the last accepted text: event "b" is rejected by
    the store, so token 5 still reads "a". *)
Example last_accepted_vector :
  completion
    (get_cat_text None "5"
       (store_after
          (deliver Subscribed [mkTextSet None 5 "a";
                               mkTextSet (Some MongoError) 5 "b";
                               mkTextSet None 6 "c"] empty_store)))
  = Normal (mkResponse 200 (JsonValue (VString "a"))).
Proof. reflexivity. Qed.

End MoreVectors.
